(** * The application kernel of impress, embedded in Rocq

    A shallow embedding of [Application] (the kernel class of the server
    runtime): the interface registry ([getMethod], [getHook],
    [introspect]), the hot-reload dispatcher installed by [startWatch],
    and the life cycle ([init], [shutdown], [stopPlace], [execute],
    [createSandbox]).

    JavaScript values are modelled by the types the kernel uses them at.

    - A string is the sequence of its UTF-16 code units.  The model has
      the strings whose code units are below 256: a character is an
      [ascii] and stands for the code unit of the same number (the
      no-break space U+00A0 is the character 160, not the two bytes of
      its UTF-8 encoding).
    - A number is a double.  The numbers of the kernel are versions: an
      integer-valued double, [NaN] or an infinity.  [parseInt] rounds the
      integer it reads to the nearest double, and [toString] prints a
      double with the fewest digits that denote it, in exponent notation
      from 10^21 on.
    - An object used as a map is a plain object: a [gmap] of its own
      properties, with the properties every plain object inherits from
      [Object.prototype] behind them.  A bracket read [o[k]] finds the
      own property, else the inherited one, else [undefined].
    - An absent value ([undefined] or [null]) is [None].

    What the kernel calls but does not define (the places, the start and
    stop hooks, the listener, the logger, the file system) is taken by
    its contract: an asynchronous function returns a promise, which
    resolves or rejects with an error object, and what it does meanwhile
    it does to objects of its own, not to the fields of the application.
    A run of the kernel is the list of the events it emits, calls and
    settlements, with the state it leaves and the way it ends; promises
    pending at the same time make progress in any interleaving. *)

From Stdlib Require Import ZArith Ascii String List Lia.
From stdpp Require Import gmap strings list fin_maps.

Local Open Scope string_scope.
Local Open Scope list_scope.
Local Open Scope Z_scope.

(** ** Errors and completions *)

(** [class Error extends global.Error]: a message and a machine-readable
    code.  Errors raised by the language itself carry no code. *)
Record Error := mkError {
  message : string;
  code : option string;
  stack : string
}.

Definition TypeError (what : string) : Error :=
  {| message := what; code := None; stack := "TypeError: " +:+ what |}.

(** How a call ends: it returns a value or throws.  For an [async]
    function, [Normal] is a resolved promise and [Throw] a rejected one. *)
Inductive completion (A : Type) : Type :=
| Normal (a : A)
| Throw (e : Error).

Arguments Normal {A} a.
Arguments Throw {A} e.

(** ** Numbers and strings *)

(** The numbers of the kernel: an integer-valued double, [NaN] out of
    [parseInt], or an infinity. *)
Inductive number : Type :=
| Int (z : Z)
| NaN
| Infinity (negative : bool).

(** The double nearest to a natural number, ties to even: the 53 leading
    bits are kept and the rest is rounded. *)
Definition round53 (n : Z) : Z :=
  let e := Z.log2 n in
  if e <? 53 then n
  else
    let sh := e - 52 in
    let q := Z.shiftr n sh in
    let r := n - Z.shiftl q sh in
    let half := Z.shiftl 1 (sh - 1) in
    Z.shiftl (if (half <? r) || ((r =? half) && Z.odd q) then q + 1 else q) sh.

(** The Number value for an integer: what does not fit below 2^1024
    is an infinity. *)
Definition to_double (z : Z) : number :=
  let m := round53 (Z.abs z) in
  if m <? 2 ^ 1024 then Int (Z.sgn z * m) else Infinity (z <? 0).

(** An integer that is a double. *)
Definition is_double (z : Z) : Prop := round53 (Z.abs z) = Z.abs z.

Definition digit_char (d : Z) : ascii := ascii_of_nat (48 + Z.to_nat d).

Definition string_of_digits (ds : list Z) : string :=
  fold_right (fun d s => String (digit_char d) s) EmptyString ds.

(** Decimal digits of a natural number, most significant first. *)
Fixpoint decimal (fuel : nat) (n : Z) : list Z :=
  match fuel with
  | O => []
  | S fuel' => if n <? 10 then [n] else decimal fuel' (n / 10) ++ [n mod 10]
  end.

Definition decimal_fuel (n : Z) : nat := S (Z.to_nat (Z.log2 n)).

(** The decimal numeral of an integer. *)
Definition Z_toString (z : Z) : string :=
  if z <? 0
  then String "-" (string_of_digits (decimal (decimal_fuel (- z)) (- z)))
  else string_of_digits (decimal (decimal_fuel z) z).

(** The number with the fewest significant digits that rounds to the
    double [x]: [s * 10^j] for the largest [j] that has one, the nearest
    to [x] when there are two, the even [s] when both are as near. *)
Fixpoint shortest (j : nat) (x : Z) : Z :=
  let unit := 10 ^ Z.of_nat j in
  let lo := x / unit * unit in
  let hi := lo + unit in
  match round53 lo =? x, round53 hi =? x with
  | true, true =>
      if x - lo <? hi - x then lo
      else if hi - x <? x - lo then hi
      else if Z.even (lo / unit) then lo else hi
  | true, false => lo
  | false, true => hi
  | false, false =>
      match j with
      | O => x
      | S j' => shortest j' x
      end
  end.

Definition shortest_decimal (x : Z) : Z :=
  shortest (Nat.pred (length (decimal (decimal_fuel x) x))) x.

Fixpoint strip_zeros (ds : list Z) : list Z :=
  match ds with
  | [] => []
  | d :: ds' =>
      match strip_zeros ds' with
      | [] => if d =? 0 then [] else [d]
      | rest => d :: rest
      end
  end.

(** Exponent notation: [d.ddde+n]. *)
Definition exponential (v : Z) : string :=
  let ds := decimal (decimal_fuel v) v in
  match strip_zeros ds with
  | [] => "0"
  | d :: frac =>
      string_of_digits [d]
      +:+ match frac with
          | [] => EmptyString
          | _ => String "." (string_of_digits frac)
          end
      +:+ "e+" +:+ Z_toString (Z.of_nat (length ds) - 1)
  end.

(** [Number.prototype.toString()] on a natural number that is a double.
    Below 2^53 every integer is a double, and is printed by its decimal
    numeral; from there on the digits are those of the shortest number
    that rounds to it, followed by zeros up to 10^21 and in exponent
    notation from 10^21 on. *)
Definition natural_toString (x : Z) : string :=
  if x <? 2 ^ 53 then Z_toString x
  else
    let v := shortest_decimal x in
    if v <? 10 ^ 21 then Z_toString v else exponential v.

(** [Number.prototype.toString()] *)
Definition toString (n : number) : string :=
  match n with
  | Int z => if z <? 0 then String "-" (natural_toString (- z))
             else natural_toString z
  | NaN => "NaN"
  | Infinity negative => if negative then "-Infinity" else "Infinity"
  end.

(** White space skipped by [parseInt]: TAB, LF, VT, FF, CR, the space and
    the no-break space; the other white space of the language has code
    units from 256 on. *)
Definition is_whitespace (c : ascii) : bool :=
  let n := N_of_ascii c in
  ((9 <=? n) && (n <=? 13) || (n =? 32) || (n =? 160))%N.

Fixpoint trimStart (s : string) : string :=
  match s with
  | String c s' => if is_whitespace c then trimStart s' else s
  | EmptyString => EmptyString
  end.

(** The value of a character as a digit of some radix up to 36. *)
Definition digit_value (c : ascii) : option Z :=
  let n := Z.of_nat (nat_of_ascii c) in
  if (48 <=? n) && (n <=? 57) then Some (n - 48)
  else if (97 <=? n) && (n <=? 122) then Some (n - 87)
  else if (65 <=? n) && (n <=? 90) then Some (n - 55)
  else None.

(** The longest prefix of [s] made of digits of radix [R]. *)
Fixpoint radix_digits (R : Z) (s : string) : list Z :=
  match s with
  | EmptyString => []
  | String c s' =>
      match digit_value c with
      | Some d => if d <? R then d :: radix_digits R s' else []
      | None => []
      end
  end.

Definition mathInt (R : Z) (ds : list Z) : Z :=
  fold_left (fun a d => a * R + d) ds 0.

Definition ToInt32 (z : Z) : Z := (z + 2 ^ 31) mod 2 ^ 32 - 2 ^ 31.

Definition strip_hex_prefix (s : string) : option string :=
  match s with
  | String "0" (String "x" s') => Some s'
  | String "0" (String "X" s') => Some s'
  | _ => None
  end.

(** [parseInt(string, radix)]; [radix = None] is an omitted radix.  The
    integer the digits denote is rounded to the nearest double, ties to
    even, as the engine of Node does for every numeral. *)
Definition parseInt (s : string) (radix : option Z) : number :=
  let S0 := trimStart s in
  let '(sign, S1) :=
    match S0 with
    | String "-" r => (-1, r)
    | String "+" r => (1, r)
    | _ => (1, S0)
    end in
  let R := match radix with Some r => ToInt32 r | None => 0 end in
  if negb (R =? 0) && ((R <? 2) || (36 <? R)) then NaN
  else
    let stripPrefix := (R =? 0) || (R =? 16) in
    let R1 := if R =? 0 then 10 else R in
    let '(R2, S2) :=
      if stripPrefix
      then match strip_hex_prefix S1 with
           | Some r => (16, r)
           | None => (R1, S1)
           end
      else (R1, S1) in
    match radix_digits R2 S2 with
    | [] => NaN
    | ds => to_double (sign * mathInt R2 ds)
    end.

(** [s.split(c)] for a one-character separator: never empty. *)
Fixpoint split (c : ascii) (s : string) : list string :=
  match s with
  | EmptyString => [EmptyString]
  | String a s' =>
      if Ascii.eqb a c then EmptyString :: split c s'
      else match split c s' with
           | h :: t => String a h :: t
           | [] => [String a EmptyString]
           end
  end.

Fixpoint drop_chars (n : nat) (s : string) : string :=
  match n, s with
  | O, _ => s
  | S n', String _ s' => drop_chars n' s'
  | S _, EmptyString => EmptyString
  end.

Fixpoint take_chars (n : nat) (s : string) : string :=
  match n, s with
  | O, _ => EmptyString
  | S n', String c s' => String c (take_chars n' s')
  | S _, EmptyString => EmptyString
  end.

(** [s.substring(from, to)]: both ends are clamped to the string and
    swapped when out of order. *)
Definition substring (s : string) (from to : Z) : string :=
  let len := Z.of_nat (String.length s) in
  let a := Z.max 0 (Z.min from len) in
  let b := Z.max 0 (Z.min to len) in
  let lo := Z.min a b in
  let hi := Z.max a b in
  take_chars (Z.to_nat (hi - lo)) (drop_chars (Z.to_nat lo) s).

(** [s.substring(from)] *)
Definition substring_from (s : string) (from : Z) : string :=
  substring s from (Z.of_nat (String.length s)).

(** [s.indexOf(c)] for a one-character needle; [-1] when absent. *)
Fixpoint indexOf (s : string) (c : ascii) : Z :=
  match s with
  | EmptyString => -1
  | String a s' =>
      if Ascii.eqb a c then 0
      else let i := indexOf s' c in if i <? 0 then -1 else i + 1
  end.

(** ** Plain objects *)

(** The names of the properties of [Object.prototype], which every plain
    object inherits. *)
Definition Object_prototype : list string :=
  [ "constructor"; "__defineGetter__"; "__defineSetter__"; "hasOwnProperty";
    "__lookupGetter__"; "__lookupSetter__"; "isPrototypeOf";
    "propertyIsEnumerable"; "toString"; "valueOf"; "__proto__";
    "toLocaleString" ].

Definition inherited (key : string) : bool :=
  existsb (String.eqb key) Object_prototype.

(** What a bracket read finds on a plain object whose own properties
    hold values of type [V]: the value stored under the key, or the
    member of [Object.prototype] of that name (a built-in function, and
    for [__proto__] the prototype object itself: all of them truthy and
    none of them with a property [default] or a property named by a
    number). *)
Inductive Value (V : Type) : Type :=
| Stored (v : V)
| Builtin (name : string).

Arguments Stored {V} v.
Arguments Builtin {V} name.

(** [o[key]]; [None] is [undefined]. *)
Definition get_property {V : Type} (o : gmap string V) (key : string)
  : option (Value V) :=
  match o !! key with
  | Some v => Some (Stored v)
  | None => if inherited key then Some (Builtin key) else None
  end.

(** ** The interface registry *)

Inductive Procedure : Type := Proc (id : nat).
Inductive Signature : Type := Sig (id : nat).

(** An interface record: [iface.default], a number, and under the string
    of each version the methods of that version.  The key of a version
    is the string of a number, which is neither [default] nor the name
    of an inherited property: the read [iface[version.toString()]] finds
    an own property or nothing. *)
Record Interface := mkInterface {
  iface_default : Z;
  iface_versions : gmap string (gmap string Procedure)
}.

(** [this.api]: [collection] by interface name, [signatures] by
    ["name.version"], a key with a dot, which no inherited property
    has.  Both are plain objects, which the kernel reads with brackets
    and never writes. *)
Record Interfaces := mkInterfaces {
  collection : gmap string Interface;
  signatures : gmap string Signature
}.

(** [getMethod(iname, ver, methodName)] on [this.api]: [null] is [None].
    When [iname] is no own key of the collection but the name of an
    inherited property, [iface] is a built-in: [iface.default] is
    [undefined], on which [toString()] throws, and [iface[...]] at the
    string of a number is [undefined]. *)
Definition getMethod (reg : Interfaces) (iname ver methodName : string)
  : completion (option (Value Procedure)) :=
  match get_property (collection reg) iname with
  | None => Normal None
  | Some (Builtin _) =>
      if String.eqb ver "*"
      then Throw (TypeError
                    "Cannot read properties of undefined (reading 'toString')")
      else Normal None
  | Some (Stored iface) =>
      let version :=
        if String.eqb ver "*" then Int (iface_default iface)
        else parseInt ver (Some 10) in
      match iface_versions iface !! toString version with
      | None => Normal None
      | Some methods =>
          match get_property methods methodName with
          | None => Normal None
          | Some proc => Normal (Some proc)
          end
      end
  end.

(** [getHook(iname)]: what the interface holds under its default
    version.  On a built-in, [iface[iface.default]] is the read of a
    property named ["undefined"], which none has. *)
Definition getHook (reg : Interfaces) (iname : string)
  : completion (option (gmap string Procedure)) :=
  match get_property (collection reg) iname with
  | None => Normal None
  | Some (Builtin _) => Normal None
  | Some (Stored iface) =>
      match iface_versions iface !! toString (Int (iface_default iface)) with
      | None => Normal None
      | Some hook => Normal (Some hook)
      end
  end.

(** The object [introspect] builds: its own properties, where a key may
    be present with the value [undefined] ([Some None] under lookup),
    and its prototype when that is no longer [Object.prototype]. *)
Record Intro := mkIntro {
  own : gmap string (option Signature);
  prototype : option Signature
}.

(** [const intro = {}] *)
Definition empty_object : Intro := mkIntro ∅ None.

(** [intro[key] = value].  Under any other key the assignment creates or
    replaces an own property; under [__proto__] it runs the inherited
    setter, which replaces the prototype by an object and ignores
    [undefined]. *)
Definition assign (intro : Intro) (key : string) (value : option Signature)
  : Intro :=
  if String.eqb key "__proto__"
  then match value with
       | Some sig => mkIntro (own intro) (Some sig)
       | None => intro
       end
  else mkIntro (<[key := value]> (own intro)) (prototype intro).

(** One turn of the loop of [introspect].  The key of the signature is
    [iname + '.' + version], in which a number is printed by [toString]
    and the [undefined] that a built-in has for [default] is printed
    ["undefined"]. *)
Definition introspect_step (reg : Interfaces) (intro : Intro)
  (interfaceName : string) : Intro :=
  let parts := split "." interfaceName in
  let iname := hd EmptyString parts in
  let ver := match parts with _ :: v :: _ => v | _ => "*" end in
  match get_property (collection reg) iname with
  | None => intro
  | Some iface =>
      let version :=
        if String.eqb ver "*"
        then match iface with
             | Stored iface => toString (Int (iface_default iface))
             | Builtin _ => "undefined"
             end
        else toString (parseInt ver None) in
      assign intro iname (signatures reg !! (iname +:+ "." +:+ version))
  end.

(** [introspect(interfaces)] *)
Definition introspect (reg : Interfaces) (interfaces : list string)
  : completion Intro :=
  Normal (fold_left (introspect_step reg) interfaces empty_object).

(** ** Places, collaborators and the application record *)

(** The eight places, named as the fields of [Application] that hold
    them. *)
Inductive Place : Type :=
| schemas | static | resources | api | lib | db | domain | scheduler.

Definition place_name (p : Place) : string :=
  match p with
  | schemas => "schemas" | static => "static" | resources => "resources"
  | api => "api" | lib => "lib" | db => "db" | domain => "domain"
  | scheduler => "scheduler"
  end.

(** [this[place]] as far as the dispatcher needs it: the eight place
    fields hold the places; a name that is no property of the
    application yields [undefined]. *)
Definition place_of_name (name : string) : option Place :=
  if String.eqb name "schemas" then Some schemas
  else if String.eqb name "static" then Some static
  else if String.eqb name "resources" then Some resources
  else if String.eqb name "api" then Some api
  else if String.eqb name "lib" then Some lib
  else if String.eqb name "db" then Some db
  else if String.eqb name "domain" then Some domain
  else if String.eqb name "scheduler" then Some scheduler
  else None.

Inductive Method : Type := Load | Change | Delete.

Definition method_name (m : Method) : string :=
  match m with Load => "load" | Change => "change" | Delete => "delete" end.

(** The methods of the places.  The seven loaders ([Schemas],
    [Resources], [Interfaces], [Modules]) have [load], [change] and
    [delete].  The scheduler has the [load] that [init] calls and, as
    [interface Scheduler] declares it, [add], [remove] and [stop]: no
    [change] and no [delete]. *)
Definition has_method (p : Place) (m : Method) : bool :=
  match p, m with
  | scheduler, Change | scheduler, Delete => false
  | _, _ => true
  end.

(** An [async] function of no argument (a start or stop hook), given by
    the way its promise settles. *)
Record AsyncFn := mkAsyncFn {
  fn_name : string;
  fn_settles : completion unit
}.

(** The identity of an object. *)
Definition Ref := nat.

Record Config := mkConfig {
  watch_timeout : Z;          (* config.server.timeouts.watch *)
  sessions : string           (* config.sessions *)
}.

Record Logger := mkLogger { logger_close : completion unit }.

Record Server := mkServer {
  host : string;
  port : Z;
  protocol : string;
  server_close : completion unit
}.

Inductive Console : Type := console_object.

Record Module := mkModule { stop : option AsyncFn }.

(** [api.auth] in the sandbox. *)
Record AuthSection := mkAuthSection { provider : option Ref }.

(** The context built by [createSandbox].  Its [lib], [db] and [domain]
    are the trees of the places themselves ([sandbox.lib = this.lib.tree])
    and are read through [tree]. *)
Record Sandbox := mkSandbox {
  worker_id : string;
  server_descriptor : option (string * Z * string);
  api_auth : option AuthSection
}.

(** The application object.  Its own fields are those the constructor
    and [init] assign.  [interfaces] and [tree] are what the places hold
    ([this.api.collection] and [this.api.signatures], [this.lib.tree]
    and the like) when the operation at hand reads them: the places are
    objects of their own, which their loaders write and the kernel only
    reads, in [getMethod], [getHook] and [introspect] and, through the
    sandbox, in [stopPlace]. *)
Record Application := mkApplication {
  kind : string;
  initialization : bool;
  finalization : bool;
  path : string;
  interfaces : Interfaces;                   (* this.api *)
  tree : Place -> list (string * Module);    (* this.lib.tree, ... *)
  starts : list AsyncFn;
  config : option Config;
  logger : option Logger;
  console : option Console;
  auth : option Ref;
  watcher : option Z;
  sandbox : option Sandbox;
  server : option Server
}.

(** [new Application()]; [app_path] is [path.join(process.cwd(),
    'application')]. *)
Definition new_Application (app_path : string) : Application :=
  {| kind := ""; initialization := true; finalization := false;
     path := app_path;
     interfaces := {| collection := ∅; signatures := ∅ |};
     tree := fun _ => [];
     starts := []; config := None; logger := None; console := None;
     auth := None; watcher := None; sandbox := None; server := None |}.

Definition set_kind (k : string) (a : Application) : Application :=
  mkApplication k (initialization a) (finalization a) (path a)
    (interfaces a) (tree a) (starts a) (config a) (logger a) (console a)
    (auth a) (watcher a) (sandbox a) (server a).

Definition set_initialization (b : bool) (a : Application) : Application :=
  mkApplication (kind a) b (finalization a) (path a)
    (interfaces a) (tree a) (starts a) (config a) (logger a) (console a)
    (auth a) (watcher a) (sandbox a) (server a).

Definition set_finalization (b : bool) (a : Application) : Application :=
  mkApplication (kind a) (initialization a) b (path a)
    (interfaces a) (tree a) (starts a) (config a) (logger a) (console a)
    (auth a) (watcher a) (sandbox a) (server a).

Definition set_starts (l : list AsyncFn) (a : Application) : Application :=
  mkApplication (kind a) (initialization a) (finalization a) (path a)
    (interfaces a) (tree a) l (config a) (logger a) (console a)
    (auth a) (watcher a) (sandbox a) (server a).

Definition set_auth (r : option Ref) (a : Application) : Application :=
  mkApplication (kind a) (initialization a) (finalization a) (path a)
    (interfaces a) (tree a) (starts a) (config a) (logger a) (console a)
    r (watcher a) (sandbox a) (server a).

Definition set_watcher (w : option Z) (a : Application) : Application :=
  mkApplication (kind a) (initialization a) (finalization a) (path a)
    (interfaces a) (tree a) (starts a) (config a) (logger a) (console a)
    (auth a) w (sandbox a) (server a).

Definition set_sandbox (s : option Sandbox) (a : Application) : Application :=
  mkApplication (kind a) (initialization a) (finalization a) (path a)
    (interfaces a) (tree a) (starts a) (config a) (logger a) (console a)
    (auth a) (watcher a) s (server a).

(** What lies outside the kernel: the host, the file system, the way
    each place's [load()] settles, what the api place publishes as
    [api.auth], the object the [auth] factory returns, and the order in
    which concurrently pending promises make progress. *)
Inductive Platform : Type := posix | win32.

Definition sep (pf : Platform) : ascii :=
  match pf with posix => "/"%char | win32 => "\"%char end.

Record World := mkWorld {
  platform : Platform;
  threadId : Z;                              (* node.worker.threadId *)
  stat : string -> option bool;              (* None: error; Some d: isDirectory() *)
  load_settles : Place -> completion unit;
  published_auth : option AuthSection;
  auth_factory : string -> Ref;              (* require('./auth.js') *)
  fanout_order : list nat;
  starts_order : list nat
}.

(** ** Observable events *)

Inductive Closable : Type := the_server | the_logger.

Inductive Event : Type :=
| WatcherCreated (timeout : Z)
| Called (p : Place) (m : Method) (arg : option string)
| Settled (p : Place) (r : completion unit)
| Invoked (f : AsyncFn)
| Finished (f : AsyncFn)
| ConsoleError (text : string)
| ConsoleDebug (text : string)
| AuthCreated (config_sessions : string) (r : Ref)
| CloseCalled (c : Closable).

(** ** Kernel computations

    A kernel operation runs on the application object, mutates it, emits
    events and returns or throws.  The state reached when it throws is
    kept: JavaScript does not roll mutations back. *)

Record Run (A : Type) : Type := mkRun {
  trace : list Event;
  final : Application;
  result : completion A
}.

Arguments mkRun {A} trace final result.
Arguments trace {A} r.
Arguments final {A} r.
Arguments result {A} r.

Definition K (A : Type) : Type := Application -> Run A.

Definition ret {A : Type} (a : A) : K A := fun s => mkRun [] s (Normal a).

Definition throw {A : Type} (e : Error) : K A := fun s => mkRun [] s (Throw e).

Definition bind {A B : Type} (m : K A) (f : A -> K B) : K B := fun s =>
  let r := m s in
  match result r with
  | Normal a =>
      let r' := f a (final r) in
      mkRun (trace r ++ trace r') (final r') (result r')
  | Throw e => mkRun (trace r) (final r) (Throw e)
  end.

#[export] Instance K_ret : MRet K := @ret.
#[export] Instance K_bind : MBind K := fun A B f m => bind m f.

Definition get : K Application := fun s => mkRun [] s (Normal s).

Definition modify (f : Application -> Application) : K unit :=
  fun s => mkRun [] (f s) (Normal tt).

Definition emit (evs : list Event) : K unit := fun s => mkRun evs s (Normal tt).

Definition settle (r : completion unit) : K unit :=
  match r with
  | Normal _ => ret tt
  | Throw e => throw e
  end.

(** ** Promises

    A pending call of an asynchronous function: the events of its
    synchronous part, emitted by the call itself, the events it emits
    afterwards, in their order, and the way its promise settles. *)
Record Task := mkTask {
  started : list Event;
  pending : list Event;
  settles : completion unit
}.

(** [await task] in a sequential [async] body. *)
Definition await (t : Task) : K unit :=
  emit (started t ++ pending t);; settle (settles t).

(** The body [await t1; await t2; ...] once [t1] has been called: the
    events that follow, and the outcome. *)
Fixpoint awaits_after (t : Task) (rest : list Task)
  : list Event * completion unit :=
  match settles t with
  | Throw e => (pending t, Throw e)
  | Normal _ =>
      match rest with
      | [] => (pending t, Normal tt)
      | t' :: rest' =>
          let '(evs, r) := awaits_after t' rest' in
          (pending t ++ started t' ++ evs, r)
      end
  end.

(** [(async () => { await t1; await t2; ... })()] *)
Definition async_arrow (ts : list Task) : Task :=
  match ts with
  | [] => mkTask [] [] (Normal tt)
  | t :: rest =>
      mkTask (started t) (fst (awaits_after t rest)) (snd (awaits_after t rest))
  end.

(** One step of a pending promise: the head event of thread [k]. *)
Fixpoint pick (k : nat) (ts : list (list Event))
  : option (Event * list (list Event)) :=
  match ts with
  | [] => None
  | t :: ts' =>
      match k with
      | O => match t with
             | e :: t' => Some (e, t' :: ts')
             | [] => None
             end
      | S k' => match pick k' ts' with
                | Some (e, ts'') => Some (e, t :: ts'')
                | None => None
                end
      end
  end.

(** An interleaving of the threads [ts], chosen by [sched]; what the
    schedule leaves is run to the end, thread after thread. *)
Fixpoint weave (sched : list nat) (ts : list (list Event)) : list Event :=
  match sched with
  | [] => concat ts
  | k :: sched' =>
      match pick k ts with
      | Some (e, ts') => e :: weave sched' ts'
      | None => weave sched' ts
      end
  end.

(** [await Promise.allSettled(tasks)]: the calls are made in order, the
    promises then settle in any interleaving, and the joint promise
    resolves whatever the outcomes. *)
Definition allSettled (sched : list nat) (tasks : list Task) : K unit :=
  emit (concat (map started tasks) ++ weave sched (map pending tasks)).

(** [place.load()]: the call, and the settling of its promise.  What the
    loader writes into its place meanwhile is not a field of the
    application, and [init] reads none of it. *)
Definition load (w : World) (p : Place) : Task :=
  mkTask [Called p Load None] [Settled p (load_settles w p)] (load_settles w p).

(** ** The life cycle *)

(** [execute(method)]: [method().catch((err) => this.console.error(err.stack))] *)
Definition execute (app : Application) (method : AsyncFn) : Task :=
  match fn_settles method with
  | Normal _ => mkTask [Invoked method] [Finished method] (Normal tt)
  | Throw err =>
      match console app with
      | Some _ =>
          mkTask [Invoked method] [Finished method; ConsoleError (stack err)]
            (Normal tt)
      | None =>
          mkTask [Invoked method] [Finished method]
            (Throw (TypeError "Cannot read properties of null (reading 'error')"))
      end
  end.

(** [startWatch()]: the watcher is created with the configured timeout;
    its two listeners are [on_change] and [on_delete] below. *)
Definition startWatch : K unit :=
  app ← get;
  match config app with
  | None => throw (TypeError "Cannot read properties of null (reading 'server')")
  | Some cfg =>
      emit [WatcherCreated (watch_timeout cfg)];;
      modify (set_watcher (Some (watch_timeout cfg)))
  end.

(** [createSandbox()]: a new context, with an empty [api]. *)
Definition createSandbox (w : World) : K unit :=
  modify (fun app =>
    set_sandbox (Some {|
      worker_id := "W" +:+ toString (Int (threadId w));
      server_descriptor :=
        match server app with
        | Some s => Some (host s, port s, protocol s)
        | None => None
        end;
      api_auth := None |}) app).

(** What the api place leaves in [sandbox.api] when its load resolves. *)
Definition publish (w : World) (app : Application) : Application :=
  match sandbox app with
  | Some sb =>
      set_sandbox (Some (mkSandbox (worker_id sb) (server_descriptor sb)
                           (published_auth w))) app
  | None => app
  end.

(** The auth bootstrap that ends [init]: from [const { api } =
    this.sandbox] to the end of [if (api.auth)]. *)
Definition authBootstrap (w : World) : K unit :=
  app ← get;
  match sandbox app with
  | None => throw (TypeError "Cannot destructure property 'api'")
  | Some sb =>
      match api_auth sb with
      | None => ret tt
      | Some section =>
          match provider section with
          | Some p => modify (set_auth (Some p))
          | None =>
              match config app with
              | None =>
                  throw (TypeError "Cannot read properties of null (reading 'sessions')")
              | Some cfg =>
                  let p := auth_factory w (sessions cfg) in
                  emit [AuthCreated (sessions cfg) p];;
                  modify (set_auth (Some p));;
                  modify (set_sandbox
                    (Some (mkSandbox (worker_id sb) (server_descriptor sb)
                             (Some (mkAuthSection (Some p))))))
              end
          end
      end
  end.

(** [init(kind)] *)
Definition init (w : World) (kind' : string) : K unit :=
  modify (set_kind kind');;
  startWatch;;
  createSandbox w;;
  allSettled (fanout_order w)
    [ load w schemas; load w static; load w resources;
      async_arrow [load w lib; load w db; load w domain] ];;
  app ← get;
  allSettled (starts_order w) (map (execute app) (starts app));;
  await (load w api);;
  modify (publish w);;
  (if String.eqb kind' "scheduler" then await (load w scheduler) else ret tt);;
  authBootstrap w;;
  modify (set_starts []);;
  modify (set_initialization false).

(** The loop of [stopPlace] over [Object.keys(place)]. *)
Fixpoint stop_modules (modules : list (string * Module)) : K unit :=
  match modules with
  | [] => ret tt
  | (_, module) :: modules' =>
      match stop module with
      | Some f => app ← get; await (execute app f)
      | None => ret tt
      end;;
      stop_modules modules'
  end.

(** [stopPlace(name)], called on the module places, whose trees the
    sandbox holds. *)
Definition stopPlace (name : Place) : K unit :=
  app ← get;
  match sandbox app with
  | None => throw (TypeError "Cannot read properties of undefined")
  | Some _ => stop_modules (tree app name)
  end.

(** [shutdown()] *)
Definition shutdown : K unit :=
  modify (set_finalization true);;
  stopPlace domain;;
  stopPlace db;;
  stopPlace lib;;
  app ← get;
  match server app with
  | Some s => await (mkTask [CloseCalled the_server] [] (server_close s))
  | None => ret tt
  end;;
  match logger app with
  | Some l => await (mkTask [CloseCalled the_logger] [] (logger_close l))
  | None => throw (TypeError "Cannot read properties of null (reading 'close')")
  end.

(** ** The hot-reload dispatcher *)

(** [this[place].m(filePath)].  On an [undefined] receiver the read of
    the method throws; on a place without the method the call throws.
    (The name of another member of the application, [kind] or [init]
    say, finds a value with no such method: a [TypeError] as well, with
    the text of the second kind.) *)
Definition call_place (place : string) (m : Method) (filePath : string)
  : K unit :=
  match place_of_name place with
  | Some p =>
      if has_method p m then emit [Called p m (Some filePath)]
      else throw (TypeError ("this[place]." +:+ method_name m
                             +:+ " is not a function"))
  | None =>
      throw (TypeError ("Cannot read properties of undefined (reading '"
                        +:+ method_name m +:+ "')"))
  end.

Definition console_debug (text : string) : K unit :=
  app ← get;
  match console app with
  | Some _ => emit [ConsoleDebug text]
  | None => throw (TypeError "Cannot read properties of null (reading 'debug')")
  end.

(** The listener of the watcher's 'change' event, with the callback it
    hands to [fs.stat]. *)
Definition on_change (w : World) (filePath : string) : K unit :=
  app ← get;
  let relPath :=
    substring_from filePath (Z.of_nat (String.length (path app)) + 1) in
  let sepIndex := indexOf relPath (sep (platform w)) in
  let place := substring relPath 0 sepIndex in
  match stat w filePath with
  | None => ret tt
  | Some true => call_place place Load filePath
  | Some false =>
      (if threadId w =? 1 then console_debug ("Reload: /" +:+ relPath)
       else ret tt);;
      call_place place Change filePath
  end.

(** The listener of the watcher's 'delete' event. *)
Definition on_delete (w : World) (filePath : string) : K unit :=
  app ← get;
  let relPath :=
    substring_from filePath (Z.of_nat (String.length (path app)) + 1) in
  let sepIndex := indexOf relPath (sep (platform w)) in
  let place := substring relPath 0 sepIndex in
  call_place place Delete filePath;;
  if threadId w =? 1 then console_debug ("Deleted: /" +:+ relPath) else ret tt.

(** ** Vocabulary of the statements: the registry *)

Definition is_digit (d : Z) : Prop := 0 <= d < 10.

(** An interface name: the part of an entry ["name.version"] before the
    dot, hence a string without dot. *)
Definition interface_name (s : string) : Prop := indexOf s "." = -1.

(** The version [getMethod] and [introspect] resolve [ver] to. *)
Definition resolved_version (iface : Interface) (ver : string)
  (radix : option Z) : number :=
  if String.eqb ver "*" then Int (iface_default iface) else parseInt ver radix.



(** The calls of [getMethod] that raise: the version ['*'] of a name that
    is unregistered but inherited from [Object.prototype]. *)
Definition raises (reg : Interfaces) (iname ver : string) : Prop :=
  collection reg !! iname = None /\ inherited iname = true /\ ver = "*".

(** A fault of the language: an error without a code. *)
Definition unchecked_fault {A : Type} (r : completion A) : Prop :=
  exists e, r = Throw e /\ code e = None.

(** ** Vocabulary of the statements: the dispatcher *)

(** The path of an event relative to the application directory, and its
    first component, as both listeners compute them. *)
Definition relative_path (app : Application) (filePath : string) : string :=
  substring_from filePath (Z.of_nat (String.length (path app)) + 1).

Definition first_component (w : World) (app : Application)
  (filePath : string) : string :=
  let relPath := relative_path app filePath in
  substring relPath 0 (indexOf relPath (sep (platform w))).

(** No [load], [change] or [delete] call on any place. *)
Definition no_place_call (tr : list Event) : Prop :=
  forall p m arg, ~ In (Called p m arg) tr.

(** ** Vocabulary of the statements: the life cycle *)

Definition prepend {A : Type} (evs : list Event) (r : Run A) : Run A :=
  mkRun (evs ++ trace r) (final r) (result r).

(** Every occurrence of [b] in [tr] comes after an occurrence of [a]
    (or [seen] holds beforehand). *)
Definition guarded (a b : Event) (seen : Prop) (tr : list Event) : Prop :=
  forall l1 l2, tr = l1 ++ b :: l2 -> seen \/ In a l1.

Definition precedes (a b : Event) (tr : list Event) : Prop :=
  guarded a b False tr.

(** The four branches of the fan-out of [init] and what they emit. *)
Definition fanout_tasks (w : World) : list Task :=
  [ load w schemas; load w static; load w resources;
    async_arrow [load w lib; load w db; load w domain] ].

Definition fanout_events (w : World) : list Event :=
  concat (map started (fanout_tasks w))
  ++ weave (fanout_order w) (map pending (fanout_tasks w)).

(** What the branch [lib -> db -> domain] emits after its first call. *)
Definition chain_pending (w : World) : list Event :=
  Settled lib (load_settles w lib)
  :: match load_settles w lib with
     | Throw _ => []
     | Normal _ =>
         Called db Load None :: Settled db (load_settles w db)
         :: match load_settles w db with
            | Throw _ => []
            | Normal _ =>
                [Called domain Load None;
                 Settled domain (load_settles w domain)]
            end
     end.

(** What running the queued start hooks emits. *)
Definition starts_events (w : World) (app : Application) : list Event :=
  concat (map started (map (execute app) (starts app)))
  ++ weave (starts_order w) (map pending (map (execute app) (starts app))).

(** The events by the phase of [init] that emits them: the fan-out, the
    start hooks, all that comes before the call of [api.load()], and what
    follows the settling of [api.load()]. *)
Definition is_fanout_event (e : Event) : bool :=
  match e with
  | Called p Load None | Settled p _ =>
      match p with api | scheduler => false | _ => true end
  | _ => false
  end.

Definition is_hook_event (e : Event) : bool :=
  match e with
  | Invoked _ | Finished _ | ConsoleError _ => true
  | _ => false
  end.

Definition is_early_event (e : Event) : bool :=
  match e with
  | WatcherCreated _ => true
  | _ => is_fanout_event e || is_hook_event e
  end.

Definition is_late_event (e : Event) : bool :=
  match e with
  | Called scheduler Load None | Settled scheduler _ | AuthCreated _ _ => true
  | _ => false
  end.

(** The application when the fan-out begins. *)
Definition prepared (w : World) (kind' : string) (cfg : Config)
  (app : Application) : Application :=
  set_sandbox
    (Some {| worker_id := "W" +:+ toString (Int (threadId w));
             server_descriptor :=
               match server app with
               | Some s => Some (host s, port s, protocol s)
               | None => None
               end;
             api_auth := None |})
    (set_watcher (Some (watch_timeout cfg)) (set_kind kind' app)).

(** What [init] emits before it calls [api.load()]. *)
Definition early_events (w : World) (cfg : Config) (app : Application)
  : list Event :=
  [WatcherCreated (watch_timeout cfg)]
  ++ fanout_events w ++ starts_events w app.

(** The events of [init] up to the settling of [api.load()]. *)
Definition events_to_api (w : World) (cfg : Config) (app : Application)
  : list Event :=
  [WatcherCreated (watch_timeout cfg)]
  ++ fanout_events w ++ starts_events w app
  ++ [Called api Load None; Settled api (load_settles w api)].

(** [init] after [await this.api.load()]. *)
Definition after_api (w : World) (kind' : string) : K unit :=
  modify (publish w);;
  (if String.eqb kind' "scheduler" then await (load w scheduler) else ret tt);;
  authBootstrap w;;
  modify (set_starts []);;
  modify (set_initialization false).

(** The conditional load of the scheduler place. *)
Definition scheduler_events (w : World) (kind' : string) : list Event :=
  if String.eqb kind' "scheduler"
  then [Called scheduler Load None; Settled scheduler (load_settles w scheduler)]
  else [].

Definition scheduler_settles (w : World) (kind' : string) : completion unit :=
  if String.eqb kind' "scheduler" then load_settles w scheduler else Normal tt.

(** The auth bootstrap on an application whose sandbox holds what the api
    place published: the events and the state it leaves. *)
Definition bootstrap_events (w : World) (cfg : Config) : list Event :=
  match published_auth w with
  | Some {| provider := None |} =>
      [AuthCreated (sessions cfg) (auth_factory w (sessions cfg))]
  | _ => []
  end.

Definition bootstrapped (w : World) (cfg : Config) (app : Application)
  : Application :=
  match published_auth w with
  | None => app
  | Some {| provider := Some p |} => set_auth (Some p) app
  | Some {| provider := None |} =>
      let p := auth_factory w (sessions cfg) in
      set_sandbox
        (match sandbox app with
         | Some sb =>
             Some (mkSandbox (worker_id sb) (server_descriptor sb)
                     (Some (mkAuthSection (Some p))))
         | None => None
         end)
        (set_auth (Some p) app)
  end.

(** The application [init] leaves when it resolves. *)
Definition initialized (w : World) (kind' : string) (cfg : Config)
  (app : Application) : Application :=
  set_initialization false
    (set_starts []
       (bootstrapped w cfg (publish w (prepared w kind' cfg app)))).

(** What [init] emits after [api.load()] has settled. *)
Definition late_events (w : World) (kind' : string) (cfg : Config)
  : list Event :=
  match load_settles w api with
  | Throw _ => []
  | Normal _ =>
      match scheduler_settles w kind' with
      | Throw _ => scheduler_events w kind'
      | Normal _ => scheduler_events w kind' ++ bootstrap_events w cfg
      end
  end.

(** The providers constructed along a trace. *)
Definition created (tr : list Event) : list (string * Ref) :=
  flat_map (fun e => match e with
                     | AuthCreated s r => [(s, r)]
                     | _ => []
                     end) tr.



(** ** Sample data *)

(** An api with one interface, [auth], in versions 1 and 2, the second
    being the default, and a signature for the second only. *)
Definition sample_api : Interfaces :=
  {| collection :=
       {[ "auth" := {| iface_default := 2;
                       iface_versions :=
                         {[ "1" := {[ "login" := Proc 1 ]};
                            "2" := {[ "login" := Proc 2 ]} ]} |} ]};
     signatures := {[ "auth.2" := Sig 7 ]} |}.

(** A host with a file [lib/foo.js], a directory [lib/sub] and a file
    [tmp/x.js] under the application directory; every load resolves,
    the api publishes no [auth]. *)
Definition sample_stat (filePath : string) : option bool :=
  if String.eqb filePath "/srv/application/lib/foo.js" then Some false
  else if String.eqb filePath "/srv/application/lib/sub" then Some true
  else if String.eqb filePath "/srv/application/tmp/x.js" then Some false
  else None.

Definition sample_world : World :=
  {| platform := posix; threadId := 1; stat := sample_stat;
     load_settles := fun _ => Normal tt;
     published_auth := None;
     auth_factory := fun _ => 100%nat;
     fanout_order := []; starts_order := [] |}.

(** An application as the worker sets it up before [init]: configured,
    with a console and a logger. *)
Definition sample_config : Config :=
  {| watch_timeout := 1000; sessions := "sessions" |}.

Definition sample_app : Application :=
  mkApplication "" true false "/srv/application"
    (mkInterfaces ∅ ∅) (fun _ => []) []
    (Some sample_config) (Some (mkLogger (Normal tt))) (Some console_object)
    None None None None.

Definition load_error : Error :=
  {| message := "cannot load"; code := None; stack := "Error: cannot load" |}.

(** Worlds in which the load of the api place fails, and in which the
    api place publishes an [auth] section with and without a provider. *)
Definition world_api_fails : World :=
  {| platform := posix; threadId := 1; stat := sample_stat;
     load_settles := fun p => match p with
                              | api => Throw load_error
                              | _ => Normal tt
                              end;
     published_auth := None;
     auth_factory := fun _ => 100%nat;
     fanout_order := []; starts_order := [] |}.

Definition world_with_provider : World :=
  {| platform := posix; threadId := 1; stat := sample_stat;
     load_settles := fun _ => Normal tt;
     published_auth := Some {| provider := Some 7%nat |};
     auth_factory := fun _ => 100%nat;
     fanout_order := [3; 0; 3]%nat; starts_order := [] |}.

Definition world_without_provider : World :=
  {| platform := posix; threadId := 1; stat := sample_stat;
     load_settles := fun p => match p with
                              | static => Throw load_error
                              | _ => Normal tt
                              end;
     published_auth := Some {| provider := None |};
     auth_factory := fun _ => 100%nat;
     fanout_order := [3; 0; 3]%nat; starts_order := [1]%nat |}.

Definition hook_error : Error :=
  {| message := "boom"; code := None; stack := "Error: boom" |}.

(** An application with two start hooks, the second of which rejects. *)
Definition app_with_hooks : Application :=
  mkApplication "" true false "/srv/application"
    (mkInterfaces ∅ ∅) (fun _ => [])
    [mkAsyncFn "one" (Normal tt); mkAsyncFn "two" (Throw hook_error)]
    (Some sample_config) (Some (mkLogger (Normal tt))) (Some console_object)
    None None None None.




(** ** Vocabulary of further statements *)

(** [s] begins with a digit of radix [R]. *)
Definition starts_with_digit (R : Z) (s : string) : bool :=
  match s with
  | String c _ =>
      match digit_value c with
      | Some d => d <? R
      | None => false
      end
  | EmptyString => false
  end.

(** The name and the version of an entry of [introspect], as the loop
    destructures [interfaceName.split('.')], and the signature the loop
    stores for it. *)
Definition entry_name (entry : string) : string :=
  hd EmptyString (split "." entry).

Definition entry_version (entry : string) : string :=
  match split "." entry with
  | _ :: v :: _ => v
  | _ => "*"
  end.

Definition entry_signature (reg : Interfaces) (iface : Interface)
  (entry : string) : option Signature :=
  signatures reg
    !! (entry_name entry +:+ "." +:+
        toString (resolved_version iface (entry_version entry) None)).

(** The characters the string of a number can begin with. *)
Definition begins_a_number (c : ascii) : bool :=
  existsb (Ascii.eqb c) (list_ascii_of_string "-NI0123456789").

(** The key under which the loop reads the signature of an entry,
    [iname + '.' + version], for what the collection holds under the
    name of the entry. *)
Definition entry_key (iface : Value Interface) (entry : string) : string :=
  entry_name entry +:+ "." +:+
  (if String.eqb (entry_version entry) "*"
   then match iface with
        | Stored iface => toString (Int (iface_default iface))
        | Builtin _ => "undefined"
        end
   else toString (parseInt (entry_version entry) None)).

(** An api whose interface [auth] has the versions 0 and 16. *)
Definition sample_api_hex : Interfaces :=
  {| collection :=
       {[ "auth" := {| iface_default := 16;
                       iface_versions :=
                         {[ "0" := {[ "login" := Proc 0 ]};
                            "16" := {[ "login" := Proc 16 ]} ]} |} ]};
     signatures := {[ "auth.0" := Sig 0; "auth.16" := Sig 16 ]} |}.

(** An api whose interface [auth] has the default version 10^21, with
    methods under the string of that number and under ["1"]. *)
Definition sample_api_1e21 : Interfaces :=
  {| collection :=
       {[ "auth" := {| iface_default := 10 ^ 21;
                       iface_versions :=
                         {[ "1" := {[ "login" := Proc 1 ]};
                            "1e+21" := {[ "login" := Proc 21 ]} ]} |} ]};
     signatures := {[ "auth.1" := Sig 1; "auth.1e+21" := Sig 21 ]} |}.

(** A host with a file [scheduler/task.js] under the application
    directory. *)
Definition world_scheduler_task : World :=
  {| platform := posix; threadId := 1;
     stat := fun filePath =>
       if String.eqb filePath "/srv/application/scheduler/task.js"
       then Some false else None;
     load_settles := fun _ => Normal tt;
     published_auth := None;
     auth_factory := fun _ => 100%nat;
     fanout_order := []; starts_order := [] |}.

(** A worker of thread identity 1 on which no console is installed. *)
Definition app_without_console : Application :=
  mkApplication "" true false "/srv/application"
    (mkInterfaces ∅ ∅) (fun _ => []) []
    (Some sample_config) None None None None None None.

(** Counting the events of a kind along a trace: the calls of
    [p.load()], and the lines written by [console.error]. *)
Fixpoint count (P : Event -> bool) (tr : list Event) : nat :=
  match tr with
  | [] => O
  | e :: tr' => ((if P e then 1 else 0) + count P tr')%nat
  end.

Definition same_place (p q : Place) : bool :=
  String.eqb (place_name p) (place_name q).

Definition is_load_of (p : Place) (e : Event) : bool :=
  match e with
  | Called q Load None => same_place p q
  | _ => false
  end.

Definition is_error_line (e : Event) : bool :=
  match e with
  | ConsoleError _ => true
  | _ => false
  end.

(** The hooks of a queue whose promise rejects. *)
Fixpoint rejected (fs : list AsyncFn) : nat :=
  match fs with
  | [] => O
  | f :: fs' =>
      ((match fn_settles f with Throw _ => 1 | Normal _ => 0 end)
       + rejected fs')%nat
  end.

(** A world in which the load of lib fails. *)
Definition world_lib_fails : World :=
  {| platform := posix; threadId := 1; stat := sample_stat;
     load_settles := fun p => match p with
                              | lib => Throw load_error
                              | _ => Normal tt
                              end;
     published_auth := None;
     auth_factory := fun _ => 100%nat;
     fanout_order := [3; 1]%nat; starts_order := [] |}.

(** * Properties *)

(** ** Doubles *)

Lemma pow2_53_lt_1024 : 2 ^ 53 < 2 ^ 1024.
Proof. apply Z.pow_lt_mono_r; lia. Qed.

Lemma pow10_21_lt_1024 : 10 ^ 21 < 2 ^ 1024.
Proof.
  apply Z.lt_trans with (2 ^ 70); [reflexivity|].
  apply Z.pow_lt_mono_r; lia.
Qed.

(** Below 2^53 every natural number is a double. *)
Lemma round53_small n : 0 <= n < 2 ^ 53 -> round53 n = n.
Proof.
  intros [H0 H]. unfold round53.
  destruct (Z.eq_dec n 0) as [->|Hne]; [reflexivity|].
  assert (Hlog : Z.log2 n < 53) by (apply Z.log2_lt_pow2; lia).
  destruct (Z.ltb_spec (Z.log2 n) 53); [reflexivity|lia].
Qed.

Lemma sgn_times_abs z : Z.sgn z * Z.abs z = z.
Proof. destruct z; reflexivity. Qed.

Lemma to_double_rounds z x :
  round53 (Z.abs z) = x -> x < 2 ^ 1024 -> to_double z = Int (Z.sgn z * x).
Proof.
  intros Hx Hlt. unfold to_double. rewrite Hx.
  destruct (Z.ltb_spec x (2 ^ 1024)); [reflexivity|lia].
Qed.

Lemma to_double_small z : Z.abs z < 2 ^ 53 -> to_double z = Int z.
Proof.
  intros H. pose proof pow2_53_lt_1024.
  rewrite (to_double_rounds z (Z.abs z)).
  - now rewrite sgn_times_abs.
  - apply round53_small. lia.
  - lia.
Qed.

Lemma is_double_small z : Z.abs z < 2 ^ 53 -> is_double z.
Proof. intros H. apply round53_small. lia. Qed.

(** ** Decimal printing and [parseInt] *)

Lemma is_digit_cases d :
  is_digit d ->
  d = 0 \/ d = 1 \/ d = 2 \/ d = 3 \/ d = 4 \/
  d = 5 \/ d = 6 \/ d = 7 \/ d = 8 \/ d = 9.
Proof. unfold is_digit. lia. Qed.

Ltac each_digit H :=
  apply is_digit_cases in H;
  repeat (destruct H as [H | H]); subst.

Lemma decimal_digits fuel : forall n, 0 <= n -> Forall is_digit (decimal fuel n).
Proof.
  induction fuel as [|fuel IH]; intros n Hn; simpl.
  - constructor.
  - destruct (Z.ltb_spec n 10).
    + constructor; [unfold is_digit; lia | constructor].
    + apply Forall_app. split.
      * apply IH. apply Z.div_pos; lia.
      * constructor; [|constructor]. unfold is_digit.
        pose proof (Z.mod_pos_bound n 10). lia.
Qed.

Lemma mathInt_snoc R ds d : mathInt R (ds ++ [d]) = mathInt R ds * R + d.
Proof. unfold mathInt. rewrite fold_left_app. reflexivity. Qed.

Lemma decimal_value fuel :
  forall n, 0 <= n < 2 ^ Z.of_nat fuel -> mathInt 10 (decimal fuel n) = n.
Proof.
  induction fuel as [|fuel IH]; intros n Hn.
  - change (2 ^ Z.of_nat 0) with 1 in Hn. cbn. lia.
  - simpl decimal. destruct (Z.ltb_spec n 10).
    + unfold mathInt. simpl. lia.
    + rewrite mathInt_snoc, IH.
      * pose proof (Z.div_mod n 10). lia.
      * rewrite Nat2Z.inj_succ, Z.pow_succ_r in Hn by lia.
        split; [apply Z.div_pos; lia|].
        apply Z.div_lt_upper_bound; lia.
Qed.

Lemma decimal_nonempty fuel n : decimal (S fuel) n <> [].
Proof.
  simpl. destruct (n <? 10); [discriminate|].
  intros H. apply app_eq_nil in H. destruct H; discriminate.
Qed.

Lemma decimal_fuel_enough n : 0 <= n -> n < 2 ^ Z.of_nat (decimal_fuel n).
Proof.
  intros Hn. unfold decimal_fuel.
  rewrite Nat2Z.inj_succ, Z2Nat.id by apply Z.log2_nonneg.
  destruct (Z.eq_dec n 0) as [->|Hne].
  - reflexivity.
  - apply Z.log2_spec. lia.
Qed.

(** A number below 10^k has at most [k] digits. *)
Lemma decimal_length fuel : forall n k,
  (1 <= k)%nat -> 0 <= n < 10 ^ Z.of_nat k ->
  (length (decimal fuel n) <= k)%nat.
Proof.
  induction fuel as [|fuel IH]; intros n k Hk Hn; simpl; [lia|].
  destruct (Z.ltb_spec n 10); [simpl; lia|].
  rewrite length_app. cbn [length].
  destruct k as [|[|k]]; [lia| |].
  - change (10 ^ Z.of_nat 1) with 10 in Hn. lia.
  - assert (length (decimal fuel (n / 10)) <= S k)%nat; [|lia].
    apply IH; [lia|]. split; [apply Z.div_pos; lia|].
    apply Z.div_lt_upper_bound; [lia|].
    rewrite <- Z.pow_succ_r by lia. rewrite <- Nat2Z.inj_succ. apply Hn.
Qed.

Lemma digit_value_digit_char d : is_digit d -> digit_value (digit_char d) = Some d.
Proof. intros H. each_digit H; reflexivity. Qed.

(** The digits of a numeral are read up to the first character that is
    no digit. *)
Lemma radix_digits_before_suffix ds suffix :
  Forall is_digit ds -> starts_with_digit 10 suffix = false ->
  radix_digits 10 (string_of_digits ds +:+ suffix) = ds.
Proof.
  intros Hds Hsuffix. induction Hds as [|d ds Hd _ IH].
  - destruct suffix as [|c suffix]; [reflexivity|].
    change (string_of_digits [] +:+ String c suffix) with (String c suffix).
    cbn [radix_digits starts_with_digit] in *.
    destruct (digit_value c); [now rewrite Hsuffix|reflexivity].
  - change (string_of_digits (d :: ds) +:+ suffix)
      with (String (digit_char d) (string_of_digits ds +:+ suffix)).
    cbn [radix_digits]. rewrite digit_value_digit_char by assumption.
    destruct (Z.ltb_spec d 10); [|unfold is_digit in Hd; lia].
    now rewrite IH.
Qed.

Lemma append_empty s : s +:+ EmptyString = s.
Proof.
  induction s as [|c s IH]; [reflexivity|].
  change (String c s +:+ EmptyString) with (String c (s +:+ EmptyString)).
  now rewrite IH.
Qed.

(** A decimal numeral, with or without sign and whatever follows it,
    parses to the double nearest to its value, under radix 10. *)
Lemma parseInt_digits_suffix (sign : bool) ds suffix :
  ds <> [] -> Forall is_digit ds -> starts_with_digit 10 suffix = false ->
  parseInt ((if sign then String "-" EmptyString else EmptyString)
            +:+ string_of_digits ds +:+ suffix) (Some 10)
  = to_double ((if sign then -1 else 1) * mathInt 10 ds).
Proof.
  intros Hne Hds Hsuffix. destruct ds as [|d ds]; [congruence|].
  rewrite <- (radix_digits_before_suffix _ _ Hds Hsuffix) at 2.
  assert (Hd : is_digit d) by (inversion Hds; assumption).
  change (string_of_digits (d :: ds) +:+ suffix)
    with (String (digit_char d) (string_of_digits ds +:+ suffix)).
  generalize (string_of_digits ds +:+ suffix) as rest. intros rest.
  destruct sign; each_digit Hd; reflexivity.
Qed.

(** The numeral of an integer: a sign and the digits of its magnitude. *)
Lemma Z_toString_digits z :
  exists ds,
    ds <> [] /\ Forall is_digit ds /\ mathInt 10 ds = Z.abs z /\
    Z_toString z
    = (if z <? 0 then String "-" EmptyString else EmptyString)
      +:+ string_of_digits ds.
Proof.
  unfold Z_toString. destruct (Z.ltb_spec z 0).
  - exists (decimal (decimal_fuel (- z)) (- z)).
    split; [apply decimal_nonempty|]. split; [apply decimal_digits; lia|].
    split; [|reflexivity]. rewrite decimal_value; [lia|].
    split; [lia|]. apply decimal_fuel_enough. lia.
  - exists (decimal (decimal_fuel z) z).
    split; [apply decimal_nonempty|]. split; [now apply decimal_digits|].
    split; [|reflexivity]. rewrite decimal_value; [lia|].
    split; [lia|]. now apply decimal_fuel_enough.
Qed.

(** What follows the numeral does not count: [parseInt] stops at the
    first character that is no digit. *)
Lemma parseInt_Z_toString_suffix z suffix :
  starts_with_digit 10 suffix = false ->
  parseInt (Z_toString z +:+ suffix) (Some 10) = to_double z.
Proof.
  intros Hsuffix.
  destruct (Z_toString_digits z) as (ds & Hne & Hds & Hval & ->).
  replace (to_double z)
    with (to_double ((if z <? 0 then -1 else 1) * mathInt 10 ds))
    by (f_equal; rewrite Hval; destruct (Z.ltb_spec z 0); lia).
  destruct (z <? 0).
  - apply (parseInt_digits_suffix true ds suffix); assumption.
  - apply (parseInt_digits_suffix false ds suffix); assumption.
Qed.

(** [parseInt(numeral, 10)] is the double nearest to the number. *)
Lemma parseInt_Z_toString z : parseInt (Z_toString z) (Some 10) = to_double z.
Proof.
  rewrite <- (append_empty (Z_toString z)).
  now apply parseInt_Z_toString_suffix.
Qed.

Lemma Z_toString_suffix_not_star z suffix :
  String.eqb (Z_toString z +:+ suffix) "*" = false.
Proof.
  destruct (Z_toString_digits z) as (ds & Hne & Hds & _ & ->).
  destruct (z <? 0); [reflexivity|].
  destruct ds as [|d ds]; [congruence|].
  assert (Hd : is_digit d) by (inversion Hds; assumption).
  change (EmptyString +:+ string_of_digits (d :: ds) +:+ suffix)
    with (String (digit_char d) (string_of_digits ds +:+ suffix)).
  generalize (string_of_digits ds +:+ suffix) as rest. intros rest.
  each_digit Hd; reflexivity.
Qed.

Lemma Z_toString_not_star z : String.eqb (Z_toString z) "*" = false.
Proof.
  rewrite <- (append_empty (Z_toString z)). apply Z_toString_suffix_not_star.
Qed.

Lemma digits_without_dot ds :
  Forall is_digit ds -> indexOf (string_of_digits ds) "." = -1.
Proof.
  induction 1 as [|d ds Hd _ IH]; [reflexivity|].
  change (string_of_digits (d :: ds))
    with (String (digit_char d) (string_of_digits ds)).
  cbn [indexOf]. rewrite IH. each_digit Hd; reflexivity.
Qed.

Lemma Z_toString_without_dot z : indexOf (Z_toString z) "." = -1.
Proof.
  unfold Z_toString. destruct (Z.ltb_spec z 0).
  - cbn [indexOf]. rewrite digits_without_dot by (apply decimal_digits; lia).
    reflexivity.
  - apply digits_without_dot, decimal_digits. lia.
Qed.

(** ** Printing a double *)

Lemma round53_1e21 : round53 (10 ^ 21) = 10 ^ 21.
Proof. vm_compute. reflexivity. Qed.

Lemma shortest_unfold j x :
  shortest j x
  = let unit := 10 ^ Z.of_nat j in
    let lo := x / unit * unit in
    let hi := lo + unit in
    match round53 lo =? x, round53 hi =? x with
    | true, true =>
        if x - lo <? hi - x then lo
        else if hi - x <? x - lo then hi
        else if Z.even (lo / unit) then lo else hi
    | true, false => lo
    | false, true => hi
    | false, false =>
        match j with
        | O => x
        | S j' => shortest j' x
        end
    end.
Proof. destruct j; reflexivity. Qed.

Ltac shortest_cases x :=
  rewrite shortest_unfold; cbv zeta;
  match goal with
  | |- context [round53 ?lo =? x] =>
      match goal with
      | |- context [round53 (lo + ?unit) =? x] =>
          destruct (Z.eqb_spec (round53 lo) x);
          destruct (Z.eqb_spec (round53 (lo + unit)) x)
      end
  end;
  repeat match goal with
         | |- context [if ?b then _ else _] => destruct b
         end.

(** The number [shortest] finds rounds to the double it is given. *)
Lemma shortest_rounds j : forall x,
  round53 x = x -> round53 (shortest j x) = x.
Proof.
  induction j as [|j IH]; intros x Hx; shortest_cases x; auto.
Qed.

(** One step of the search, below 10^21: the lower candidate is at most
    [x], and the upper one, when it rounds to [x], is below 10^21, which
    is a double itself. *)
Lemma shortest_candidates (j : nat) x :
  (j <= 20)%nat -> 0 <= x < 10 ^ 21 ->
  0 <= x / 10 ^ Z.of_nat j * 10 ^ Z.of_nat j <= x /\
  (round53 (x / 10 ^ Z.of_nat j * 10 ^ Z.of_nat j + 10 ^ Z.of_nat j) = x ->
   0 <= x / 10 ^ Z.of_nat j * 10 ^ Z.of_nat j + 10 ^ Z.of_nat j < 10 ^ 21).
Proof.
  intros Hj Hx. set (unit := 10 ^ Z.of_nat j).
  assert (Hunit : 0 < unit) by (apply Z.pow_pos_nonneg; lia).
  pose proof (Z.mul_div_le x unit Hunit) as Hle.
  assert (H0 : 0 <= x / unit) by (apply Z.div_pos; lia).
  split; [nia|]. intros Hhi.
  assert (Hsplit : 10 ^ 21 = unit * 10 ^ (21 - Z.of_nat j)).
  { unfold unit. rewrite <- Z.pow_add_r by lia. f_equal. lia. }
  assert (Hq : x / unit < 10 ^ (21 - Z.of_nat j)).
  { apply Z.div_lt_upper_bound; [assumption|]. rewrite <- Hsplit. lia. }
  assert (Hmax : x / unit * unit + unit <= 10 ^ 21) by (rewrite Hsplit; nia).
  split; [nia|].
  destruct (Z.eq_dec (x / unit * unit + unit) (10 ^ 21)) as [Heq|Hne];
    [|lia].
  rewrite Heq, round53_1e21 in Hhi. lia.
Qed.

Lemma shortest_bounds j : forall x,
  (j <= 20)%nat -> 0 <= x < 10 ^ 21 ->
  0 <= shortest j x < 10 ^ 21.
Proof.
  induction j as [|j IH]; intros x Hj Hx.
  - destruct (shortest_candidates 0%nat x Hj Hx) as [Hlo Hhi].
    shortest_cases x; auto; lia.
  - destruct (shortest_candidates (S j) x Hj Hx) as [Hlo Hhi].
    shortest_cases x; auto; try lia.
    apply IH; [lia|assumption].
Qed.

(** A natural double below 10^21 is printed as the decimal numeral of a
    number that rounds to it. *)
Lemma natural_toString_numeral x :
  0 <= x < 10 ^ 21 -> round53 x = x ->
  exists v,
    natural_toString x = Z_toString v /\
    0 <= v < 10 ^ 21 /\ round53 v = x.
Proof.
  intros Hx Hdouble. unfold natural_toString.
  destruct (Z.ltb_spec x (2 ^ 53)); [exists x; auto|].
  assert (Hj : (Nat.pred (length (decimal (decimal_fuel x) x)) <= 20)%nat).
  { pose proof (decimal_length (decimal_fuel x) x 21 ltac:(lia) Hx). lia. }
  pose proof (shortest_bounds _ x Hj Hx) as Hv.
  pose proof (shortest_rounds (Nat.pred (length (decimal (decimal_fuel x) x)))
                x Hdouble) as Hr.
  fold (shortest_decimal x) in Hv, Hr.
  exists (shortest_decimal x).
  destruct (Z.ltb_spec (shortest_decimal x) (10 ^ 21)); [auto|lia].
Qed.

(** An integer-valued double of magnitude below 10^21 is printed as a
    decimal numeral, which denotes a number that rounds to it. *)
Lemma toString_numeral n :
  is_double n -> Z.abs n < 10 ^ 21 ->
  exists v, toString (Int n) = Z_toString v /\ to_double v = Int n.
Proof.
  intros Hdouble Hn. unfold is_double in Hdouble. cbn [toString].
  pose proof pow10_21_lt_1024 as Hbig.
  destruct (Z.ltb_spec n 0) as [Hneg|Hpos].
  - replace (Z.abs n) with (- n) in * by lia.
    destruct (natural_toString_numeral (- n) ltac:(lia) Hdouble)
      as (v & -> & Hv & Hr).
    assert (v <> 0) by (intros ->; cbn in Hr; lia).
    exists (- v). split.
    + unfold Z_toString.
      destruct (Z.ltb_spec (- v) 0); [|lia].
      destruct (Z.ltb_spec v 0); [lia|].
      now rewrite Z.opp_involutive.
    + rewrite (to_double_rounds (- v) (- n)).
      * f_equal. rewrite Z.sgn_neg by lia. lia.
      * now replace (Z.abs (- v)) with v by lia.
      * lia.
  - replace (Z.abs n) with n in * by lia.
    destruct (natural_toString_numeral n ltac:(lia) Hdouble)
      as (v & -> & Hv & Hr).
    exists v. split; [reflexivity|].
    rewrite (to_double_rounds v n).
    + f_equal. destruct (Z.eq_dec n 0) as [->|Hne].
      * lia.
      * assert (v <> 0) by (intros ->; cbn in Hr; lia).
        rewrite Z.sgn_pos by lia. lia.
    + now replace (Z.abs v) with v by lia.
    + lia.
Qed.

(** [parseInt(d.toString(), 10)] is [d], for an integer [d] of magnitude
    below 10^21. *)
Lemma parseInt_toString n :
  is_double n -> Z.abs n < 10 ^ 21 ->
  parseInt (toString (Int n)) (Some 10) = Int n.
Proof.
  intros Hdouble Hn.
  destruct (toString_numeral n Hdouble Hn) as (v & -> & <-).
  apply parseInt_Z_toString.
Qed.

Lemma toString_below_2_53 n : Z.abs n < 2 ^ 53 -> toString (Int n) = Z_toString n.
Proof.
  intros Hn. cbn [toString]. unfold natural_toString, Z_toString.
  destruct (Z.ltb_spec n 0).
  - destruct (Z.ltb_spec (- n) (2 ^ 53)); [|lia].
    destruct (Z.ltb_spec (- n) 0); [lia|reflexivity].
  - destruct (Z.ltb_spec n (2 ^ 53)); [|lia].
    destruct (Z.ltb_spec n 0); [lia|reflexivity].
Qed.

(** ** Splitting entries *)

Lemma indexOf_cons_absent a s c :
  indexOf (String a s) c = -1 -> Ascii.eqb a c = false /\ indexOf s c = -1.
Proof.
  simpl. destruct (Ascii.eqb a c); [discriminate|].
  destruct (Z.ltb_spec (indexOf s c) 0) as [Hlt|Hge]; [|lia].
  intros _. split; [reflexivity|].
  clear a. induction s as [|b s IH]; [reflexivity|].
  simpl in *. destruct (Ascii.eqb b c); [lia|].
  destruct (Z.ltb_spec (indexOf s c) 0); [reflexivity|lia].
Qed.

Lemma split_without_separator c s : indexOf s c = -1 -> split c s = [s].
Proof.
  induction s as [|a s IH]; intros H; [reflexivity|].
  apply indexOf_cons_absent in H as [Ha Hs].
  simpl. rewrite Ha, (IH Hs). reflexivity.
Qed.

Lemma split_at_separator c a b :
  indexOf a c = -1 -> split c (a +:+ String c b) = a :: split c b.
Proof.
  induction a as [|x a IH]; intros H.
  - simpl. rewrite Ascii.eqb_refl. reflexivity.
  - apply indexOf_cons_absent in H as [Hx Ha].
    simpl. rewrite Hx, (IH Ha). reflexivity.
Qed.

Lemma split_nonempty c s : split c s <> [].
Proof.
  destruct s as [|a s]; simpl; [discriminate|].
  destruct (Ascii.eqb a c); [discriminate|].
  destruct (split c s); discriminate.
Qed.


(** ** The default radix *)

Lemma strip_hex_prefix_digits ds :
  Forall is_digit ds -> strip_hex_prefix (string_of_digits ds) = None.
Proof.
  intros Hds. destruct ds as [|d1 [|d2 ds]]; [reflexivity| |].
  - assert (H1 : is_digit d1) by (inversion Hds; assumption).
    each_digit H1; reflexivity.
  - assert (H1 : is_digit d1) by (inversion Hds; assumption).
    assert (H2 : is_digit d2).
    { inversion Hds as [|? ? _ Hds']. inversion Hds'. assumption. }
    change (string_of_digits (d1 :: d2 :: ds))
      with (String (digit_char d1)
              (String (digit_char d2) (string_of_digits ds))).
    generalize (string_of_digits ds) as rest. intros rest.
    each_digit H1; try reflexivity. each_digit H2; reflexivity.
Qed.

(** Without a [0x] prefix after the sign, an omitted radix is radix 10. *)
Lemma parseInt_default_radix s :
  strip_hex_prefix
    (match trimStart s with
     | String "-" r => r
     | String "+" r => r
     | S0 => S0
     end) = None ->
  parseInt s None = parseInt s (Some 10).
Proof.
  unfold parseInt. destruct (trimStart s) as [|c r].
  - intros _. reflexivity.
  - destruct c as [[] [] [] [] [] [] [] []]; intros H;
      cbv beta iota zeta in H |- *; rewrite H; reflexivity.
Qed.

Lemma parseInt_Z_toString_default z :
  parseInt (Z_toString z) None = to_double z.
Proof.
  rewrite parseInt_default_radix; [apply parseInt_Z_toString|].
  unfold Z_toString. destruct (Z.ltb_spec z 0).
  - change (trimStart (String "-" ?s)) with (String "-" s).
    cbv beta iota. apply strip_hex_prefix_digits, decimal_digits. lia.
  - pose proof (decimal_nonempty (Z.to_nat (Z.log2 z)) z) as Hne.
    pose proof (decimal_digits (decimal_fuel z) z ltac:(lia)) as Hds.
    unfold decimal_fuel in *.
    destruct (decimal _ z) as [|d ds]; [congruence|].
    rewrite <- (strip_hex_prefix_digits _ Hds). f_equal.
    assert (Hd : is_digit d) by (inversion Hds; assumption).
    change (string_of_digits (d :: ds))
      with (String (digit_char d) (string_of_digits ds)).
    generalize (string_of_digits ds) as rest. intros rest.
    each_digit Hd; reflexivity.
Qed.

(** The string of an integer of magnitude below 10^21 is no ['*'], has no
    dot, and parses back to the integer under either radix. *)
Lemma toString_round_trip n :
  is_double n -> Z.abs n < 10 ^ 21 ->
  String.eqb (toString (Int n)) "*" = false /\
  indexOf (toString (Int n)) "." = -1 /\
  parseInt (toString (Int n)) (Some 10) = Int n /\
  parseInt (toString (Int n)) None = Int n.
Proof.
  intros Hdouble Hn.
  destruct (toString_numeral n Hdouble Hn) as (v & -> & <-).
  split; [apply Z_toString_not_star|].
  split; [apply Z_toString_without_dot|].
  split; [apply parseInt_Z_toString|apply parseInt_Z_toString_default].
Qed.

(** ** Reads on plain objects *)

Lemma get_property_own {V} (o : gmap string V) key v :
  o !! key = Some v -> get_property o key = Some (Stored v).
Proof. unfold get_property. now intros ->. Qed.

Lemma get_property_undefined {V} (o : gmap string V) key :
  o !! key = None -> inherited key = false -> get_property o key = None.
Proof. unfold get_property. now intros -> ->. Qed.

Lemma get_property_inherited {V} (o : gmap string V) key :
  o !! key = None -> inherited key = true ->
  get_property o key = Some (Builtin key).
Proof. unfold get_property. now intros -> ->. Qed.

(** The key of a version, the string of a number, begins with a digit,
    a sign or the first letter of [NaN] or [Infinity]: it is neither
    [default] nor the name of an inherited property, and the read
    [iface[version.toString()]] is the lookup of an own property. *)
Lemma Z_toString_head z suffix :
  exists c rest,
    Z_toString z +:+ suffix = String c rest /\ begins_a_number c = true.
Proof.
  destruct (Z_toString_digits z) as (ds & Hne & Hds & _ & ->).
  destruct (z <? 0); [eexists _, _; split; reflexivity|].
  destruct ds as [|d ds]; [congruence|].
  assert (Hd : is_digit d) by (inversion Hds; assumption).
  exists (digit_char d), (string_of_digits ds +:+ suffix).
  split; [reflexivity|]. each_digit Hd; reflexivity.
Qed.

Lemma shortest_nonneg j : forall x, 0 <= x -> 0 <= shortest j x.
Proof.
  induction j as [|j IH]; intros x Hx.
  - assert (0 <= x / 10 ^ Z.of_nat 0 * 10 ^ Z.of_nat 0)
      by (change (10 ^ Z.of_nat 0) with 1; rewrite Z.div_1_r; lia).
    shortest_cases x; auto; change (10 ^ Z.of_nat 0) with 1 in *; lia.
  - assert (Hunit : 0 < 10 ^ Z.of_nat (S j)) by (apply Z.pow_pos_nonneg; lia).
    assert (0 <= x / 10 ^ Z.of_nat (S j)) by (apply Z.div_pos; lia).
    assert (0 <= x / 10 ^ Z.of_nat (S j) * 10 ^ Z.of_nat (S j)) by nia.
    shortest_cases x; auto; lia.
Qed.

Lemma strip_zeros_digits ds :
  Forall is_digit ds -> Forall is_digit (strip_zeros ds).
Proof.
  induction 1 as [|d ds Hd _ IH]; cbn [strip_zeros]; [constructor|].
  destruct (strip_zeros ds) as [|d' rest].
  - destruct (d =? 0); [constructor|]. constructor; [assumption|constructor].
  - constructor; assumption.
Qed.

Lemma natural_toString_head x :
  0 <= x ->
  exists c rest, natural_toString x = String c rest /\ begins_a_number c = true.
Proof.
  intros Hx. unfold natural_toString.
  destruct (x <? 2 ^ 53).
  { rewrite <- (append_empty (Z_toString x)). apply Z_toString_head. }
  destruct (shortest_decimal x <? 10 ^ 21).
  { rewrite <- (append_empty (Z_toString _)). apply Z_toString_head. }
  assert (Hv : 0 <= shortest_decimal x) by now apply shortest_nonneg.
  unfold exponential.
  pose proof (strip_zeros_digits _
                (decimal_digits (decimal_fuel (shortest_decimal x)) _ Hv))
    as Hds.
  destruct (strip_zeros _) as [|d frac].
  - eexists _, _. split; reflexivity.
  - assert (Hd : is_digit d) by (inversion Hds; assumption).
    eexists (digit_char d), _. split; [reflexivity|].
    each_digit Hd; reflexivity.
Qed.

Lemma toString_head n :
  exists c rest, toString n = String c rest /\ begins_a_number c = true.
Proof.
  destruct n as [z| |[|]]; cbn [toString];
    try (eexists _, _; split; reflexivity).
  destruct (Z.ltb_spec z 0); [eexists _, _; split; reflexivity|].
  now apply natural_toString_head.
Qed.

Lemma version_key_is_own n :
  inherited (toString n) = false /\ String.eqb (toString n) "default" = false.
Proof.
  destruct (toString_head n) as (c & rest & -> & Hc).
  unfold begins_a_number in Hc.
  apply existsb_exists in Hc as (x & Hin & Heq).
  apply Ascii.eqb_eq in Heq. subst x. cbn in Hin.
  repeat (destruct Hin as [<-|Hin]; [split; reflexivity|]).
  destruct Hin.
Qed.

Lemma read_of_version iface n :
  get_property (iface_versions iface) (toString n)
  = Stored <$> iface_versions iface !! toString n.
Proof.
  unfold get_property. destruct (iface_versions iface !! _); [reflexivity|].
  now rewrite (proj1 (version_key_is_own n)).
Qed.

(** The key of a signature has a dot, which the name of no inherited
    property has: the read [signatures[iname + '.' + version]] is the
    lookup of an own property. *)
Lemma inherited_without_dot key : inherited key = true -> indexOf key "." = -1.
Proof.
  unfold inherited. intros H.
  apply existsb_exists in H as (x & Hin & Heq).
  apply String.eqb_eq in Heq. subst x. cbn in Hin.
  repeat (destruct Hin as [<-|Hin]; [reflexivity|]).
  destruct Hin.
Qed.

Lemma indexOf_with_separator a c b : 0 <= indexOf (a +:+ String c b) c.
Proof.
  induction a as [|x a IH].
  - change (EmptyString +:+ String c b) with (String c b).
    cbn [indexOf]. now rewrite Ascii.eqb_refl.
  - change (String x a +:+ String c b) with (String x (a +:+ String c b)).
    cbn [indexOf]. destruct (Ascii.eqb x c); [lia|].
    destruct (Z.ltb_spec (indexOf (a +:+ String c b) c) 0); lia.
Qed.

Lemma read_of_signature reg iname version :
  get_property (signatures reg) (iname +:+ "." +:+ version)
  = Stored <$> signatures reg !! (iname +:+ "." +:+ version).
Proof.
  unfold get_property. destruct (signatures reg !! _); [reflexivity|].
  destruct (inherited (iname +:+ "." +:+ version)) eqn:Hi; [|reflexivity].
  apply inherited_without_dot in Hi.
  pose proof (indexOf_with_separator iname "." version) as Hdot.
  change (iname +:+ "." +:+ version) with (iname +:+ String "." version) in Hi.
  lia.
Qed.

(** The string of an integer-valued number is a sign, digits, and a tail
    that is empty or begins with the dot or the [e] of the exponent
    notation. *)
Lemma append_assoc a b c : (a +:+ b) +:+ c = a +:+ (b +:+ c).
Proof.
  induction a as [|x a IH]; [reflexivity|].
  change ((String x a +:+ b) +:+ c) with (String x ((a +:+ b) +:+ c)).
  now rewrite IH.
Qed.

Lemma natural_toString_shape x :
  0 <= x ->
  exists ds tail,
    ds <> [] /\ Forall is_digit ds /\
    natural_toString x = string_of_digits ds +:+ tail /\
    (forall suffix,
       starts_with_digit 10 suffix = false ->
       starts_with_digit 10 (tail +:+ suffix) = false).
Proof.
  intros Hx.
  assert (Hnumeral : forall v, 0 <= v ->
            exists ds tail,
              ds <> [] /\ Forall is_digit ds /\
              Z_toString v = string_of_digits ds +:+ tail /\
              (forall suffix,
                 starts_with_digit 10 suffix = false ->
                 starts_with_digit 10 (tail +:+ suffix) = false)).
  { intros v Hv. destruct (Z_toString_digits v) as (ds & Hne & Hds & _ & Hs).
    destruct (Z.ltb_spec v 0); [lia|].
    exists ds, EmptyString. rewrite append_empty. auto. }
  unfold natural_toString. destruct (x <? 2 ^ 53); [now apply Hnumeral|].
  assert (Hv : 0 <= shortest_decimal x) by now apply shortest_nonneg.
  destruct (shortest_decimal x <? 10 ^ 21); [now apply Hnumeral|].
  unfold exponential.
  pose proof (strip_zeros_digits _
                (decimal_digits (decimal_fuel (shortest_decimal x)) _ Hv))
    as Hds.
  destruct (strip_zeros _) as [|d frac].
  - exists [0], EmptyString. split; [discriminate|].
    split; [constructor; [unfold is_digit; lia|constructor]|]. auto.
  - assert (Hd : is_digit d) by (inversion Hds; assumption).
    eexists [d], _. split; [discriminate|].
    split; [constructor; [assumption|constructor]|].
    split; [reflexivity|]. intros suffix _. destruct frac; reflexivity.
Qed.

(** After the string of a number, a suffix that does not begin with a
    digit changes nothing for [parseInt], and neither string is ['*']. *)
Lemma parseInt_number_suffix z suffix :
  starts_with_digit 10 suffix = false ->
  parseInt (toString (Int z) +:+ suffix) (Some 10)
  = parseInt (toString (Int z)) (Some 10) /\
  String.eqb (toString (Int z) +:+ suffix) "*" = false /\
  String.eqb (toString (Int z)) "*" = false.
Proof.
  intros Hsuffix.
  assert (Hshape : exists (sign : bool) ds tail,
            ds <> [] /\ Forall is_digit ds /\
            toString (Int z)
            = (if sign then String "-" EmptyString else EmptyString)
              +:+ string_of_digits ds +:+ tail /\
            (forall suffix,
               starts_with_digit 10 suffix = false ->
               starts_with_digit 10 (tail +:+ suffix) = false)).
  { cbn [toString]. destruct (Z.ltb_spec z 0).
    - destruct (natural_toString_shape (- z) ltac:(lia))
        as (ds & tail & Hne & Hds & -> & Htail).
      exists true, ds, tail. auto.
    - destruct (natural_toString_shape z ltac:(lia))
        as (ds & tail & Hne & Hds & -> & Htail).
      exists false, ds, tail. auto. }
  destruct Hshape as (sign & ds & tail & Hne & Hds & -> & Htail).
  assert (Hone : forall suffix',
            starts_with_digit 10 suffix' = false ->
            parseInt (((if sign then String "-" EmptyString else EmptyString)
                       +:+ string_of_digits ds +:+ tail) +:+ suffix') (Some 10)
            = to_double ((if sign then -1 else 1) * mathInt 10 ds) /\
            String.eqb (((if sign then String "-" EmptyString else EmptyString)
                         +:+ string_of_digits ds +:+ tail) +:+ suffix') "*"
            = false).
  { intros suffix' Hs. rewrite !append_assoc. split.
    - apply parseInt_digits_suffix; auto.
    - destruct sign; [reflexivity|].
      destruct ds as [|d ds]; [congruence|].
      assert (Hd : is_digit d) by (inversion Hds; assumption).
      change (EmptyString +:+ string_of_digits (d :: ds)
              +:+ tail +:+ suffix')
        with (String (digit_char d)
                (string_of_digits ds +:+ tail +:+ suffix')).
      generalize (string_of_digits ds +:+ tail +:+ suffix') as rest.
      intros rest. each_digit Hd; reflexivity. }
  destruct (Hone suffix Hsuffix) as [Hp Hs].
  destruct (Hone EmptyString eq_refl) as [Hp0 Hs0].
  rewrite append_empty in Hp0, Hs0.
  rewrite Hp, Hp0. auto.
Qed.

(** ** Method resolution *)

(** On a registered interface [getMethod] returns: what the methods of
    the resolved version hold under the method name, inherited functions
    among them. *)
Lemma getMethod_registered reg iname iface ver methodName :
  collection reg !! iname = Some iface ->
  getMethod reg iname ver methodName
  = Normal (iface_versions iface
              !! toString (resolved_version iface ver (Some 10)) ≫= fun methods =>
            get_property methods methodName).
Proof.
  intros HI. unfold getMethod, resolved_version.
  rewrite (get_property_own _ _ _ HI).
  destruct (iface_versions iface !! _) as [methods|]; [|reflexivity]. cbn.
  destruct (get_property methods methodName); reflexivity.
Qed.

(** With an explicit version [getMethod] returns, whatever the name. *)
Lemma getMethod_explicit reg iname ver methodName :
  String.eqb ver "*" = false ->
  getMethod reg iname ver methodName
  = Normal (collection reg !! iname ≫= fun iface =>
            iface_versions iface !! toString (parseInt ver (Some 10)) ≫= fun methods =>
            get_property methods methodName).
Proof.
  intros Hstar.
  destruct (collection reg !! iname) as [iface|] eqn:HI.
  - rewrite (getMethod_registered _ _ _ _ _ HI).
    unfold resolved_version. rewrite Hstar. reflexivity.
  - unfold getMethod, get_property. rewrite HI, Hstar.
    destruct (inherited iname); reflexivity.
Qed.

Lemma introspect_one reg entry :
  introspect reg [entry] = Normal (introspect_step reg empty_object entry).
Proof. reflexivity. Qed.

(** C3, as the code has it: for a registered interface whose default
    version is an integer of magnitude below 10^21, the version ['*']
    resolves a method exactly as the string of the default version
    does: both calls return what the methods stored under that string
    hold for the method name. *)
Theorem getMethod_star_is_default reg I iface m :
  collection reg !! I = Some iface ->
  is_double (iface_default iface) ->
  Z.abs (iface_default iface) < 10 ^ 21 ->
  getMethod reg I "*" m
  = getMethod reg I (toString (Int (iface_default iface))) m /\
  getMethod reg I "*" m
  = Normal (iface_versions iface
              !! toString (Int (iface_default iface)) ≫= fun methods =>
            get_property methods m).
Proof.
  intros HI Hdouble Hd.
  destruct (toString_round_trip _ Hdouble Hd) as (Hstar & _ & Hparse & _).
  rewrite !(getMethod_registered _ _ _ _ _ HI). unfold resolved_version.
  rewrite Hstar, Hparse. split; reflexivity.
Qed.

Lemma getMethod_star_is_default_witness :
  getMethod sample_api "auth" "*" "login"
  = getMethod sample_api "auth" "2" "login".
Proof.
  refine (proj1 (getMethod_star_is_default sample_api "auth"
                   {| iface_default := 2;
                      iface_versions :=
                        {[ "1" := {[ "login" := Proc 1 ]};
                           "2" := {[ "login" := Proc 2 ]} ]} |} "login"
                   _ _ _)).
  - reflexivity.
  - reflexivity.
  - reflexivity.
Defined.

(** C3 as stated fails: the default version 10^21 is printed ['1e+21'],
    which [parseInt] reads as 1.  With ['*'] the method comes from the
    methods stored under ['1e+21'], with the string of the default
    version from those stored under ['1']. *)
Lemma getMethod_star_differs_from_1e21 :
  collection sample_api_1e21 !! "auth"
  = Some {| iface_default := 10 ^ 21;
            iface_versions :=
              {[ "1" := {[ "login" := Proc 1 ]};
                 "1e+21" := {[ "login" := Proc 21 ]} ]} |} /\
  toString (Int (10 ^ 21)) = "1e+21" /\
  parseInt "1e+21" (Some 10) = Int 1 /\
  getMethod sample_api_1e21 "auth" "*" "login"
  = Normal (Some (Stored (Proc 21))) /\
  getMethod sample_api_1e21 "auth" (toString (Int (10 ^ 21))) "login"
  = Normal (Some (Stored (Proc 1))) /\
  getMethod sample_api_1e21 "auth" "*" "login"
  <> getMethod sample_api_1e21 "auth" (toString (Int (10 ^ 21))) "login".
Proof.
  assert (Hprint : toString (Int (10 ^ 21)) = "1e+21")
    by (vm_compute; reflexivity).
  rewrite Hprint.
  split; [reflexivity|]. split; [reflexivity|]. split; [reflexivity|].
  assert (Hstar : getMethod sample_api_1e21 "auth" "*" "login"
                  = Normal (Some (Stored (Proc 21)))).
  { erewrite getMethod_registered by reflexivity.
    unfold resolved_version. change (String.eqb "*" "*") with true.
    cbv iota. change (iface_default _) with (10 ^ 21). rewrite Hprint.
    reflexivity. }
  assert (Hexplicit : getMethod sample_api_1e21 "auth" "1e+21" "login"
                      = Normal (Some (Stored (Proc 1)))) by reflexivity.
  rewrite Hstar, Hexplicit.
  split; [reflexivity|]. split; [reflexivity|]. discriminate.
Qed.




(** ** Introspection *)

Lemma assign_fresh key value :
  String.eqb key "__proto__" = false ->
  assign empty_object key value = mkIntro {[ key := value ]} None.
Proof.
  intros Hkey. unfold assign. rewrite Hkey. cbn [own prototype empty_object].
  now rewrite insert_empty.
Qed.

Lemma introspect_entry reg I iface v :
  interface_name I ->
  String.eqb I "__proto__" = false ->
  collection reg !! I = Some iface ->
  introspect reg [I +:+ "." +:+ v]
  = Normal (mkIntro
              {[ I := signatures reg
                        !! (I +:+ "." +:+
                            toString (resolved_version iface
                                        (hd EmptyString (split "." v)) None)) ]}
              None).
Proof.
  intros Hname Hproto HI. rewrite introspect_one. unfold introspect_step.
  change (I +:+ "." +:+ v) with (I +:+ String "." v).
  rewrite (split_at_separator _ _ _ Hname).
  pose proof (split_nonempty "." v) as Hne.
  destruct (split "." v) as [|ver rest]; [congruence|].
  cbn [hd]. rewrite (get_property_own _ _ _ HI). unfold resolved_version.
  rewrite (assign_fresh _ _ Hproto).
  destruct (String.eqb ver "*"); reflexivity.
Qed.




(** ** Malformed versions *)




(** The white space that [parseInt] skips includes the no-break space:
    a version written with one before the numeral is well formed. *)
Lemma parseInt_skips_no_break_space :
  parseInt (String (ascii_of_nat 160) "2") (Some 10) = Int 2 /\
  getMethod sample_api "auth" (String (ascii_of_nat 160) "2") "login"
  = Normal (Some (Stored (Proc 2))).
Proof. split; reflexivity. Qed.

(** ** Paths *)

Lemma length_append a b :
  String.length (a +:+ b) = (String.length a + String.length b)%nat.
Proof. induction a as [|c a IH]; simpl; [reflexivity|]. now rewrite IH. Qed.

Lemma drop_chars_append a b : drop_chars (String.length a) (a +:+ b) = b.
Proof. induction a as [|c a IH]; simpl; [reflexivity|exact IH]. Qed.

Lemma take_chars_append a b : take_chars (String.length a) (a +:+ b) = a.
Proof. induction a as [|c a IH]; simpl; [reflexivity|]. now rewrite IH. Qed.

Lemma take_chars_all s : take_chars (String.length s) s = s.
Proof. induction s as [|c s IH]; simpl; [reflexivity|]. now rewrite IH. Qed.

Lemma substring_from_after a c b :
  substring_from (a +:+ String c b) (Z.of_nat (String.length a) + 1) = b.
Proof.
  unfold substring_from, substring.
  rewrite length_append. cbn [String.length].
  set (la := String.length a). set (lb := String.length b).
  replace (Z.max 0 (Z.min (Z.of_nat la + 1) (Z.of_nat (la + S lb))))
    with (Z.of_nat (S la)) by lia.
  replace (Z.max 0 (Z.min (Z.of_nat (la + S lb)) (Z.of_nat (la + S lb))))
    with (Z.of_nat (la + S lb)) by lia.
  replace (Z.to_nat (Z.min (Z.of_nat (S la)) (Z.of_nat (la + S lb))))
    with (S la) by lia.
  replace (Z.to_nat (Z.max (Z.of_nat (S la)) (Z.of_nat (la + S lb))
                     - Z.min (Z.of_nat (S la)) (Z.of_nat (la + S lb))))
    with lb by lia.
  replace (S la) with (String.length (a +:+ String c EmptyString))
    by (rewrite length_append; cbn; unfold la; lia).
  assert (Hassoc : a +:+ String c b = (a +:+ String c EmptyString) +:+ b).
  { clear. induction a as [|x a IH]; [reflexivity|].
    change (String x (a +:+ String c b)
            = String x ((a +:+ String c EmptyString) +:+ b)).
    now rewrite <- IH. }
  rewrite Hassoc, drop_chars_append. apply take_chars_all.
Qed.

Lemma indexOf_at_separator a c b :
  indexOf a c = -1 -> indexOf (a +:+ String c b) c = Z.of_nat (String.length a).
Proof.
  induction a as [|x a IH]; intros H.
  - simpl. now rewrite Ascii.eqb_refl.
  - apply indexOf_cons_absent in H as [Hx Ha].
    change (String x a +:+ String c b) with (String x (a +:+ String c b)).
    cbn [indexOf String.length]. rewrite Hx, (IH Ha).
    destruct (Z.ltb_spec (Z.of_nat (String.length a)) 0); lia.
Qed.

Lemma substring_prefix a b :
  substring (a +:+ b) 0 (Z.of_nat (String.length a)) = a.
Proof.
  unfold substring. rewrite length_append.
  set (la := String.length a). set (lb := String.length b).
  replace (Z.max 0 (Z.min 0 (Z.of_nat (la + lb)))) with 0 by lia.
  replace (Z.max 0 (Z.min (Z.of_nat la) (Z.of_nat (la + lb))))
    with (Z.of_nat la) by lia.
  replace (Z.to_nat (Z.min 0 (Z.of_nat la))) with 0%nat by lia.
  replace (Z.to_nat (Z.max 0 (Z.of_nat la) - Z.min 0 (Z.of_nat la)))
    with la by lia.
  cbn [drop_chars]. apply take_chars_append.
Qed.

(** The first component of [<path>/<first>/<rest>] is [<first>]. *)
Lemma first_component_of_path w app first rest :
  indexOf first (sep (platform w)) = -1 ->
  let filePath :=
    path app +:+ String (sep (platform w))
      (first +:+ String (sep (platform w)) rest) in
  relative_path app filePath = first +:+ String (sep (platform w)) rest /\
  first_component w app filePath = first.
Proof.
  intros Hfirst filePath.
  assert (Hrel : relative_path app filePath
                 = first +:+ String (sep (platform w)) rest)
    by apply substring_from_after.
  split; [exact Hrel|].
  unfold first_component. rewrite Hrel.
  rewrite (indexOf_at_separator _ _ _ Hfirst).
  apply substring_prefix.
Qed.

Lemma place_name_no_separator pf p : indexOf (place_name p) (sep pf) = -1.
Proof. destruct pf, p; reflexivity. Qed.

Lemma place_of_place_name p : place_of_name (place_name p) = Some p.
Proof. destruct p; reflexivity. Qed.

(** ** Laws of kernel computations *)

Lemma run_eta {A} (r : Run A) : mkRun (trace r) (final r) (result r) = r.
Proof. destruct r; reflexivity. Qed.

Lemma bind_get {A} (f : Application -> K A) s : (get ≫= f) s = f s s.
Proof. unfold mbind, K_bind, bind, get. cbn. apply run_eta. Qed.

Lemma bind_ret {A B} (a : A) (f : A -> K B) s : (ret a ≫= f) s = f a s.
Proof. unfold mbind, K_bind, bind, ret. cbn. apply run_eta. Qed.

Lemma bind_modify {A} g (f : unit -> K A) s : (modify g ≫= f) s = f tt (g s).
Proof. unfold mbind, K_bind, bind, modify. cbn. apply run_eta. Qed.

Lemma bind_throw {A B} e (f : A -> K B) s :
  (throw e ≫= f) s = mkRun [] s (Throw e).
Proof. reflexivity. Qed.

Lemma bind_emit {A} evs (f : unit -> K A) s :
  (emit evs ≫= f) s
  = mkRun (evs ++ trace (f tt s)) (final (f tt s)) (result (f tt s)).
Proof. reflexivity. Qed.

Lemma bind_normal {A B} (m : K A) (f : A -> K B) s tr s' a :
  m s = mkRun tr s' (Normal a) ->
  (m ≫= f) s
  = mkRun (tr ++ trace (f a s')) (final (f a s')) (result (f a s')).
Proof. unfold mbind, K_bind, bind. intros ->. reflexivity. Qed.

Lemma bind_abrupt {A B} (m : K A) (f : A -> K B) s tr s' e :
  m s = mkRun tr s' (Throw e) -> (m ≫= f) s = mkRun tr s' (Throw e).
Proof. unfold mbind, K_bind, bind. intros ->. reflexivity. Qed.

(** ** The hot-reload dispatcher *)

Lemma console_debug_run text app :
  console_debug text app
  = match console app with
    | Some _ => mkRun [ConsoleDebug text] app (Normal tt)
    | None =>
        mkRun [] app
          (Throw (TypeError "Cannot read properties of null (reading 'debug')"))
    end.
Proof.
  unfold console_debug. rewrite bind_get.
  destruct (console app); reflexivity.
Qed.

Lemma on_change_run w filePath app :
  on_change w filePath app
  = match stat w filePath with
    | None => mkRun [] app (Normal tt)
    | Some true =>
        call_place (first_component w app filePath) Load filePath app
    | Some false =>
        ((if threadId w =? 1
          then console_debug ("Reload: /" +:+ relative_path app filePath)
          else ret tt);;
         call_place (first_component w app filePath) Change filePath) app
    end.
Proof.
  unfold on_change. rewrite bind_get.
  unfold first_component, relative_path.
  destruct (stat w filePath) as [[|]|]; reflexivity.
Qed.

Lemma on_delete_run w filePath app :
  on_delete w filePath app
  = (call_place (first_component w app filePath) Delete filePath;;
     if threadId w =? 1
     then console_debug ("Deleted: /" +:+ relative_path app filePath)
     else ret tt) app.
Proof. unfold on_delete. rewrite bind_get. reflexivity. Qed.

Lemma call_place_run p m filePath app :
  call_place (place_name p) m filePath app
  = if has_method p m
    then mkRun [Called p m (Some filePath)] app (Normal tt)
    else mkRun [] app
           (Throw (TypeError ("this[place]." +:+ method_name m
                              +:+ " is not a function"))).
Proof.
  unfold call_place. rewrite place_of_place_name.
  destruct (has_method p m); reflexivity.
Qed.

(** C5, as the code has it: a change event on a path under a known
    place.  When the stat fails nothing is called; for a directory the
    one call is [place.load(path)]; for a file the worker of thread
    identity 1, and no other, writes the debug line first, and throws
    there when no console is installed; then the one call is
    [place.change(path)], on the place that owns the path, except under
    the scheduler, which has no [change]: there the listener throws and
    nothing is called. *)
Theorem change_event_routing w app p rest :
  let relPath := place_name p +:+ String (sep (platform w)) rest in
  let filePath := path app +:+ String (sep (platform w)) relPath in
  on_change w filePath app
  = match stat w filePath with
    | None => mkRun [] app (Normal tt)
    | Some true => mkRun [Called p Load (Some filePath)] app (Normal tt)
    | Some false =>
        match threadId w =? 1, console app with
        | true, None =>
            mkRun [] app
              (Throw (TypeError
                        "Cannot read properties of null (reading 'debug')"))
        | logs, _ =>
            mkRun
              ((if logs then [ConsoleDebug ("Reload: /" +:+ relPath)] else [])
               ++ if has_method p Change
                  then [Called p Change (Some filePath)]
                  else [])
              app
              (if has_method p Change then Normal tt
               else Throw (TypeError "this[place].change is not a function"))
        end
    end.
Proof.
  intros relPath filePath. subst relPath filePath.
  destruct (first_component_of_path w app (place_name p) rest
              (place_name_no_separator _ _)) as [Hrel Hfirst].
  rewrite on_change_run, Hfirst, Hrel.
  destruct (stat w _) as [[|]|]; [| |reflexivity].
  - rewrite call_place_run. destruct p; reflexivity.
  - destruct (threadId w =? 1).
    + destruct (console app) as [c|] eqn:Hc.
      * erewrite bind_normal
          by (rewrite console_debug_run, Hc; reflexivity).
        rewrite call_place_run. destruct (has_method p Change); reflexivity.
      * erewrite bind_abrupt
          by (rewrite console_debug_run, Hc; reflexivity).
        reflexivity.
    + rewrite bind_ret, call_place_run.
      destruct (has_method p Change), (console app); reflexivity.
Qed.

Lemma change_event_routing_witness :
  on_change sample_world "/srv/application/lib/foo.js" sample_app
  = mkRun [ConsoleDebug "Reload: /lib/foo.js";
           Called lib Change (Some "/srv/application/lib/foo.js")]
      sample_app (Normal tt).
Proof.
  exact (change_event_routing sample_world sample_app lib "foo.js").
Defined.

(** C5 as stated fails: a file change under the scheduler place calls no
    [change], the listener throws a [TypeError]; and in the worker of
    thread identity 1 with no console installed, a file change under lib
    throws before [lib.change] is called. *)
Lemma scheduler_file_change_throws :
  stat world_scheduler_task "/srv/application/scheduler/task.js" = Some false /\
  on_change world_scheduler_task "/srv/application/scheduler/task.js" sample_app
  = mkRun [ConsoleDebug "Reload: /scheduler/task.js"] sample_app
      (Throw (TypeError "this[place].change is not a function")) /\
  no_place_call
    (trace (on_change world_scheduler_task
              "/srv/application/scheduler/task.js" sample_app)) /\
  on_change sample_world "/srv/application/lib/foo.js" app_without_console
  = mkRun [] app_without_console
      (Throw (TypeError "Cannot read properties of null (reading 'debug')")).
Proof.
  split; [reflexivity|].
  assert (Hrun : on_change world_scheduler_task
                   "/srv/application/scheduler/task.js" sample_app
                 = mkRun [ConsoleDebug "Reload: /scheduler/task.js"] sample_app
                     (Throw (TypeError "this[place].change is not a function")))
    by reflexivity.
  rewrite Hrun. split; [reflexivity|]. split; [|reflexivity].
  intros p m arg [H|[]]. discriminate H.
Qed.




(** ** Interleavings *)

Lemma pick_spec k : forall ts e ts',
  pick k ts = Some (e, ts') ->
  exists pre t post, ts = pre ++ (e :: t) :: post /\ ts' = pre ++ t :: post.
Proof.
  induction k as [|k IH]; intros [|t ts] e ts' H; simpl in H; try discriminate.
  - destruct t as [|e0 t]; [discriminate|]. inversion H; subst.
    exists [], t, ts. split; reflexivity.
  - destruct (pick k ts) as [[e0 ts0]|] eqn:Hp; [|discriminate].
    inversion H; subst.
    destruct (IH _ _ _ Hp) as (pre & t0 & post & -> & ->).
    exists (t :: pre), t0, post. split; reflexivity.
Qed.

(** An interleaving has the events of its threads, no more and no less. *)
Lemma weave_events sched : forall ts e,
  In e (weave sched ts) <-> In e (concat ts).
Proof.
  induction sched as [|k sched IH]; intros ts e; simpl; [reflexivity|].
  destruct (pick k ts) as [[e0 ts']|] eqn:Hp; [|apply IH].
  destruct (pick_spec _ _ _ _ Hp) as (pre & t & post & -> & ->).
  simpl. rewrite IH, !concat_app. simpl. rewrite !in_app_iff. simpl.
  rewrite in_app_iff. tauto.
Qed.

Lemma guarded_weaken a b (seen seen' : Prop) tr :
  (seen -> seen') -> guarded a b seen tr -> guarded a b seen' tr.
Proof. intros Himp H l1 l2 Heq. destruct (H l1 l2 Heq); auto. Qed.

Lemma guarded_cons a b seen e tr :
  guarded a b seen (e :: tr)
  <-> (e = b -> seen) /\ guarded a b (seen \/ e = a) tr.
Proof.
  split.
  - intros H. split.
    + intros ->. destruct (H [] tr eq_refl) as [Hs|[]]. exact Hs.
    + intros l1 l2 ->. destruct (H (e :: l1) l2 eq_refl) as [Hs|[He|Hin]]; auto.
  - intros [Hhead Htail] l1 l2 Heq. destruct l1 as [|x l1]; simpl in Heq.
    + inversion Heq; subst. left. auto.
    + inversion Heq; subst.
      destruct (Htail l1 l2 eq_refl) as [[Hs|He]|Hin]; simpl; auto.
Qed.

Lemma guarded_nil a b seen : guarded a b seen [].
Proof. intros [|x l1] l2 H; discriminate H. Qed.

Lemma guarded_app a b seen tr1 tr2 :
  guarded a b seen tr1 -> guarded a b seen tr2 -> guarded a b seen (tr1 ++ tr2).
Proof.
  revert seen. induction tr1 as [|e tr1 IH]; intros seen H1 H2; [exact H2|].
  simpl. apply guarded_cons in H1 as [Hhead Htail].
  apply guarded_cons. split; [exact Hhead|].
  apply IH; [exact Htail|]. eapply guarded_weaken; [|exact H2]. auto.
Qed.

Lemma guarded_concat a b seen ts :
  (forall t, In t ts -> guarded a b seen t) -> guarded a b seen (concat ts).
Proof.
  induction ts as [|t ts IH]; intros H; simpl; [apply guarded_nil|].
  apply guarded_app; [apply H; now left|].
  apply IH. intros t' Ht'. apply H. now right.
Qed.

(** Interleaving keeps the order of each thread: when in every thread
    [a] comes before [b], so it does in any interleaving of them. *)
Lemma weave_guarded a b sched : forall ts seen,
  (forall t, In t ts -> guarded a b seen t) ->
  guarded a b seen (weave sched ts).
Proof.
  induction sched as [|k sched IH]; intros ts seen H; simpl.
  - now apply guarded_concat.
  - destruct (pick k ts) as [[e ts']|] eqn:Hp; [|now apply IH].
    destruct (pick_spec _ _ _ _ Hp) as (pre & t & post & -> & ->).
    assert (Ht : guarded a b seen (e :: t))
      by (apply H, in_app_iff; right; now left).
    apply guarded_cons in Ht as [Hhead Htail].
    apply guarded_cons. split; [exact Hhead|].
    apply IH. intros t' Ht'. apply in_app_iff in Ht' as [Hin|[<-|Hin]].
    + eapply guarded_weaken; [|apply H, in_app_iff; now left]. auto.
    + exact Htail.
    + eapply guarded_weaken; [|apply H, in_app_iff; right; now right]. auto.
Qed.

(** Past a prefix that holds [a] and not [b], [a] precedes [b]. *)
Lemma guarded_after a b seen tr1 tr2 :
  ~ In b tr1 -> In a tr1 -> guarded a b seen (tr1 ++ tr2).
Proof.
  intros Hb Ha l1 l2 Heq. right.
  revert l1 Heq. induction tr1 as [|e tr1 IH]; intros l1 Heq; [destruct Ha|].
  destruct l1 as [|x l1]; simpl in Heq; inversion Heq; subst.
  - exfalso. apply Hb. now left.
  - destruct Ha as [->|Ha]; [now left|]. right.
    apply IH; auto. intros Hin. apply Hb. now right.
Qed.

Lemma guarded_absent a b seen tr : ~ In b tr -> guarded a b seen tr.
Proof.
  intros Hb l1 l2 ->. exfalso. apply Hb, in_app_iff. right. now left.
Qed.

(** ** Running [init] *)

Lemma bind_step {A B} (m : K A) (f : A -> K B) s tr s' a :
  m s = mkRun tr s' (Normal a) -> (m ≫= f) s = prepend tr (f a s').
Proof. apply bind_normal. Qed.

Lemma bind_emit_prepend {A} evs (f : unit -> K A) s :
  (emit evs ≫= f) s = prepend evs (f tt s).
Proof. reflexivity. Qed.

Lemma prepend_prepend {A} evs1 evs2 (r : Run A) :
  prepend evs1 (prepend evs2 r) = prepend (evs1 ++ evs2) r.
Proof. unfold prepend. cbn. now rewrite app_assoc. Qed.

Lemma prepend_run {A} evs tr s (c : completion A) :
  prepend evs (mkRun tr s c) = mkRun (evs ++ tr) s c.
Proof. reflexivity. Qed.

Lemma await_run t s : await t s = mkRun (started t ++ pending t) s (settles t).
Proof.
  unfold await. rewrite bind_emit_prepend. unfold settle.
  destruct (settles t) as [[]|e]; unfold prepend, ret, throw;
    cbn [trace final result]; f_equal; apply app_nil_r.
Qed.

Lemma startWatch_run app cfg :
  config app = Some cfg ->
  startWatch app
  = mkRun [WatcherCreated (watch_timeout cfg)]
      (set_watcher (Some (watch_timeout cfg)) app) (Normal tt).
Proof.
  intros Hcfg. unfold startWatch. rewrite bind_get, Hcfg.
  rewrite bind_emit_prepend. reflexivity.
Qed.

Lemma init_to_api w kind' app cfg :
  config app = Some cfg ->
  init w kind' app
  = match load_settles w api with
    | Normal _ =>
        prepend (events_to_api w cfg app)
          (after_api w kind' (prepared w kind' cfg app))
    | Throw e =>
        mkRun (events_to_api w cfg app) (prepared w kind' cfg app) (Throw e)
    end.
Proof.
  intros Hcfg. unfold init.
  rewrite bind_modify.
  rewrite (bind_step _ _ _ _ _ _
             (startWatch_run (set_kind kind' app) cfg Hcfg)).
  cbv beta. unfold createSandbox. rewrite bind_modify. cbv beta.
  unfold allSettled. rewrite bind_emit_prepend. cbv beta.
  rewrite bind_get. cbv beta. rewrite bind_emit_prepend. cbv beta.
  fold (after_api w kind').
  change (set_sandbox _ (set_watcher _ (set_kind kind' app)))
    with (prepared w kind' cfg app).
  rewrite !prepend_prepend.
  unfold events_to_api, fanout_events, starts_events, fanout_tasks.
  destruct (load_settles w api) as [[]|e] eqn:Hapi.
  - rewrite (bind_step _ _ _ _ _ _
               (eq_trans (await_run _ _) (f_equal _ Hapi))).
    rewrite prepend_prepend. cbn [load started pending].
    rewrite Hapi, <- !app_assoc. reflexivity.
  - rewrite (bind_abrupt _ _ _ _ _ _
               (eq_trans (await_run _ _) (f_equal _ Hapi))).
    rewrite prepend_run. cbn [load started pending].
    rewrite Hapi, <- !app_assoc. reflexivity.
Qed.

Lemma authBootstrap_run w app cfg sb :
  config app = Some cfg ->
  sandbox app = Some sb ->
  api_auth sb = published_auth w ->
  authBootstrap w app
  = mkRun (bootstrap_events w cfg) (bootstrapped w cfg app) (Normal tt).
Proof.
  intros Hcfg Hsb Hpub. unfold authBootstrap, bootstrap_events, bootstrapped.
  rewrite bind_get, Hsb, Hpub.
  destruct (published_auth w) as [[[p|]]|]; cbn [provider].
  - reflexivity.
  - rewrite Hcfg, bind_emit_prepend, bind_modify. reflexivity.
  - reflexivity.
Qed.

Lemma after_api_run w kind' app cfg sb :
  config app = Some cfg ->
  sandbox app = Some sb ->
  after_api w kind' app
  = match scheduler_settles w kind' with
    | Normal _ =>
        mkRun (scheduler_events w kind' ++ bootstrap_events w cfg)
          (set_initialization false
             (set_starts [] (bootstrapped w cfg (publish w app))))
          (Normal tt)
    | Throw e => mkRun (scheduler_events w kind') (publish w app) (Throw e)
    end.
Proof.
  intros Hcfg Hsb. unfold after_api. rewrite bind_modify. cbv beta.
  assert (Hboot : authBootstrap w (publish w app)
                  = mkRun (bootstrap_events w cfg)
                      (bootstrapped w cfg (publish w app)) (Normal tt)).
  { unfold publish. rewrite Hsb.
    eapply authBootstrap_run; [exact Hcfg|reflexivity|reflexivity]. }
  unfold scheduler_settles, scheduler_events.
  destruct (String.eqb kind' "scheduler").
  - destruct (load_settles w scheduler) as [[]|e] eqn:Hs.
    + rewrite (bind_step _ _ _ _ _ _
                 (eq_trans (await_run _ _) (f_equal _ Hs))).
      cbv beta. rewrite (bind_step _ _ _ _ _ _ Hboot). cbv beta.
      rewrite !bind_modify. unfold modify. rewrite !prepend_run.
      cbn [load started pending]. rewrite Hs, app_nil_r. reflexivity.
    + rewrite (bind_abrupt _ _ _ _ _ _
                 (eq_trans (await_run _ _) (f_equal _ Hs))).
      cbn [load started pending]. rewrite Hs. reflexivity.
  - rewrite bind_ret. cbv beta. rewrite (bind_step _ _ _ _ _ _ Hboot).
    cbv beta. rewrite !bind_modify. unfold modify. rewrite !prepend_run.
    rewrite app_nil_r. reflexivity.
Qed.

(** The run of [init] on a configured application. *)
Lemma init_run w kind' app cfg :
  config app = Some cfg ->
  init w kind' app
  = match load_settles w api with
    | Throw e =>
        mkRun (events_to_api w cfg app) (prepared w kind' cfg app) (Throw e)
    | Normal _ =>
        match scheduler_settles w kind' with
        | Throw e =>
            mkRun (events_to_api w cfg app ++ scheduler_events w kind')
              (publish w (prepared w kind' cfg app)) (Throw e)
        | Normal _ =>
            mkRun (events_to_api w cfg app ++ scheduler_events w kind'
                   ++ bootstrap_events w cfg)
              (initialized w kind' cfg app) (Normal tt)
        end
    end.
Proof.
  intros Hcfg. rewrite (init_to_api _ _ _ _ Hcfg).
  destruct (load_settles w api) as [[]|e]; [|reflexivity].
  erewrite after_api_run; [|exact Hcfg|reflexivity].
  destruct (scheduler_settles w kind') as [[]|e]; reflexivity.
Qed.

(** ** The events of the fan-out and of the start hooks *)

Lemma chain_pending_spec w :
  pending (async_arrow [load w lib; load w db; load w domain])
  = chain_pending w.
Proof.
  unfold chain_pending, async_arrow. cbn.
  destruct (load_settles w lib) as [[]|e1]; [|reflexivity].
  destruct (load_settles w db) as [[]|e2]; [|reflexivity].
  destruct (load_settles w domain) as [[]|e3]; reflexivity.
Qed.

Lemma fanout_events_spec w :
  fanout_events w
  = [Called schemas Load None; Called static Load None;
     Called resources Load None; Called lib Load None]
    ++ weave (fanout_order w)
         [ [Settled schemas (load_settles w schemas)];
           [Settled static (load_settles w static)];
           [Settled resources (load_settles w resources)];
           chain_pending w ].
Proof.
  unfold fanout_events, fanout_tasks.
  cbn [map]. rewrite chain_pending_spec. reflexivity.
Qed.

Lemma chain_pending_kind w e :
  In e (chain_pending w) -> is_fanout_event e = true.
Proof.
  unfold chain_pending.
  destruct (load_settles w lib) as [[]|e1];
    [destruct (load_settles w db) as [[]|e2]|];
    cbn; intuition (subst; reflexivity).
Qed.

Lemma fanout_events_kind w e :
  In e (fanout_events w) -> is_fanout_event e = true.
Proof.
  rewrite fanout_events_spec, in_app_iff, weave_events.
  intros [H|H].
  - cbn in H. intuition (subst; reflexivity).
  - cbn [concat] in H. rewrite !in_app_iff in H.
    destruct H as [H|[H|[H|[H|[]]]]];
      try (cbn in H; intuition (subst; reflexivity)).
    now apply (chain_pending_kind w).
Qed.

(** Each of the four branches is started and settles, whatever the
    others do. *)
Lemma fanout_complete w p :
  In p [schemas; static; resources; lib] ->
  In (Called p Load None) (fanout_events w) /\
  In (Settled p (load_settles w p)) (fanout_events w).
Proof.
  intros Hp. rewrite fanout_events_spec. split.
  - apply in_app_iff. left. cbn in Hp |- *. intuition (subst; auto).
  - apply in_app_iff. right. apply weave_events. cbn [concat].
    rewrite !in_app_iff. unfold chain_pending.
    cbn in Hp |- *. intuition (subst; auto).
Qed.

Lemma execute_started app f : started (execute app f) = [Invoked f].
Proof.
  unfold execute. destruct (fn_settles f); [reflexivity|].
  destruct (console app); reflexivity.
Qed.

Lemma execute_pending app f :
  pending (execute app f)
  = Finished f
    :: match fn_settles f, console app with
       | Throw err, Some _ => [ConsoleError (stack err)]
       | _, _ => []
       end.
Proof.
  unfold execute. destruct (fn_settles f); [reflexivity|].
  destruct (console app); reflexivity.
Qed.

Lemma starts_events_kind w app e :
  In e (starts_events w app) -> is_hook_event e = true.
Proof.
  unfold starts_events. rewrite in_app_iff, weave_events, !in_concat.
  intros [(l & Hl & He)|(l & Hl & He)];
    apply in_map_iff in Hl as (t & <- & Ht);
    apply in_map_iff in Ht as (f & <- & Hf).
  - rewrite execute_started in He. destruct He as [<-|[]]. reflexivity.
  - rewrite execute_pending in He. destruct He as [<-|He]; [reflexivity|].
    destruct (fn_settles f); [destruct He|].
    destruct (console app); [|destruct He].
    destruct He as [<-|[]]. reflexivity.
Qed.

(** Every queued hook is invoked and finishes, and its rejection is
    logged on the console. *)
Lemma starts_complete w app f :
  In f (starts app) ->
  In (Invoked f) (starts_events w app) /\
  In (Finished f) (starts_events w app) /\
  (forall err c,
     fn_settles f = Throw err -> console app = Some c ->
     In (ConsoleError (stack err)) (starts_events w app)).
Proof.
  intros Hf. unfold starts_events. repeat split.
  - apply in_app_iff. left. apply in_concat.
    exists [Invoked f]. split; [|now left].
    apply in_map_iff. exists (execute app f).
    split; [apply execute_started|]. now apply in_map.
  - apply in_app_iff. right. apply weave_events, in_concat.
    exists (pending (execute app f)). split.
    + apply in_map, in_map. exact Hf.
    + rewrite execute_pending. now left.
  - intros err c Herr Hc.
    apply in_app_iff. right. apply weave_events, in_concat.
    exists (pending (execute app f)). split.
    + apply in_map, in_map. exact Hf.
    + rewrite execute_pending, Herr, Hc. right. now left.
Qed.

Lemma init_trace w kind' app cfg :
  config app = Some cfg ->
  trace (init w kind' app)
  = [WatcherCreated (watch_timeout cfg)]
    ++ fanout_events w ++ starts_events w app
    ++ [Called api Load None; Settled api (load_settles w api)]
    ++ late_events w kind' cfg.
Proof.
  intros Hcfg. rewrite (init_run _ _ _ _ Hcfg).
  unfold late_events, events_to_api.
  destruct (load_settles w api) as [[]|e].
  - destruct (scheduler_settles w kind') as [[]|e]; cbn [trace];
      rewrite <- ?app_assoc; reflexivity.
  - cbn [trace]. rewrite app_nil_r. reflexivity.
Qed.

Lemma scheduler_events_kind w kind' e :
  In e (scheduler_events w kind') -> is_late_event e = true.
Proof.
  unfold scheduler_events. destruct (String.eqb kind' "scheduler"); cbn;
    intuition (subst; reflexivity).
Qed.

Lemma bootstrap_events_kind w cfg e :
  In e (bootstrap_events w cfg) -> is_late_event e = true.
Proof.
  unfold bootstrap_events. destruct (published_auth w) as [[[p|]]|]; cbn;
    intuition (subst; reflexivity).
Qed.

Lemma late_events_kind w kind' cfg e :
  In e (late_events w kind' cfg) -> is_late_event e = true.
Proof.
  unfold late_events. destruct (load_settles w api); [|intros []].
  destruct (scheduler_settles w kind'); [rewrite in_app_iff; intros [H|H]|].
  - eapply scheduler_events_kind, H.
  - eapply bootstrap_events_kind, H.
  - apply scheduler_events_kind.
Qed.

Lemma guarded_other_kind (kindof : Event -> bool) a b seen tr :
  (forall e, In e tr -> kindof e = true) -> kindof b = false ->
  guarded a b seen tr.
Proof.
  intros Hall Hb. apply guarded_absent. intros Hin.
  rewrite (Hall _ Hin) in Hb. discriminate.
Qed.

(** In the fan-out, [db.load()] is called after [lib.load()] has
    resolved, and [domain.load()] after [db.load()] has resolved. *)
Lemma fanout_chain_order w :
  precedes (Settled lib (Normal tt)) (Called db Load None) (fanout_events w) /\
  precedes (Settled db (Normal tt)) (Called domain Load None) (fanout_events w).
Proof.
  rewrite fanout_events_spec. unfold precedes.
  split; (apply guarded_app;
    [apply guarded_absent; cbn; intuition discriminate|]);
    apply weave_guarded; intros t Ht;
    destruct Ht as [<-|[<-|[<-|[<-|[]]]]];
    try (apply guarded_absent; cbn; intuition discriminate).
  - unfold chain_pending.
    destruct (load_settles w lib) as [[]|e1].
    + apply guarded_cons. split; [discriminate|].
      apply guarded_cons. split; [auto|].
      apply guarded_absent.
      destruct (load_settles w db); cbn; intuition discriminate.
    + apply guarded_absent. cbn. intuition discriminate.
  - unfold chain_pending.
    destruct (load_settles w lib) as [[]|e1].
    + apply guarded_cons. split; [discriminate|].
      apply guarded_cons. split; [discriminate|].
      destruct (load_settles w db) as [[]|e2].
      * apply guarded_cons. split; [discriminate|].
        apply guarded_cons. split; [auto|].
        apply guarded_absent. cbn. intuition discriminate.
      * apply guarded_cons. split; [discriminate|]. apply guarded_nil.
    + apply guarded_absent. cbn. intuition discriminate.
Qed.

Lemma early_events_kind w cfg app e :
  In e (early_events w cfg app) -> is_early_event e = true.
Proof.
  unfold early_events. rewrite !in_app_iff. intros [[<-|[]]|[H|H]].
  - reflexivity.
  - apply fanout_events_kind in H. unfold is_early_event.
    destruct e; try reflexivity; rewrite H; reflexivity.
  - apply starts_events_kind in H. unfold is_early_event.
    destruct e; try reflexivity; rewrite H; apply orb_true_r.
Qed.

Lemma init_trace_parts w kind' app cfg :
  config app = Some cfg ->
  trace (init w kind' app)
  = early_events w cfg app
    ++ [Called api Load None; Settled api (load_settles w api)]
    ++ late_events w kind' cfg.
Proof.
  intros Hcfg. rewrite (init_trace _ _ _ _ Hcfg). unfold early_events.
  rewrite <- !app_assoc. reflexivity.
Qed.

(** An order between two events of the fan-out holds in the whole trace
    of [init]. *)
Lemma in_chain_order a b w kind' app cfg :
  config app = Some cfg ->
  precedes a b (fanout_events w) ->
  is_fanout_event b = true ->
  precedes a b (trace (init w kind' app)).
Proof.
  intros Hcfg Hfan Hb. rewrite (init_trace _ _ _ _ Hcfg). unfold precedes.
  assert (Hother : forall e, is_fanout_event e = true ->
            e <> WatcherCreated (watch_timeout cfg) /\
            is_hook_event e = false /\ is_late_event e = false /\
            e <> Called api Load None /\
            e <> Settled api (load_settles w api)).
  { intros [t|p [] [s|]|p r|f|f|t|t|s r|c]; try discriminate 1;
      destruct p; try discriminate 1; intros _;
      repeat split; try reflexivity; discriminate. }
  destruct (Hother b Hb) as (Hw & Hh & Hl & Ha1 & Ha2).
  apply guarded_app; [|apply guarded_app; [|apply guarded_app;
    [|apply guarded_app]]].
  - apply guarded_absent. intros [H|[]]. congruence.
  - exact Hfan.
  - apply (guarded_other_kind is_hook_event);
      [apply starts_events_kind|exact Hh].
  - apply guarded_absent. intros [H|[H|[]]]; congruence.
  - apply (guarded_other_kind is_late_event);
      [apply late_events_kind|exact Hl].
Qed.

(** ** Start-up *)

(** C8, as the code has it.  In every run of [init] on a configured
    application: [db.load()] is called only after [lib.load()] has
    resolved and [domain.load()] only after [db.load()] has resolved;
    [api.load()] is called, and only after the three single branches
    have settled, the chained branch has emitted all it emits and every
    start hook has been invoked and has finished; the scheduler place is
    loaded only if the kind is 'scheduler', is loaded whenever the kind
    is 'scheduler' and [api.load()] has resolved, and only after
    [api.load()] has resolved. *)
Theorem init_load_order w kind' app cfg :
  config app = Some cfg ->
  let tr := trace (init w kind' app) in
  let api_load := Called api Load None in
  precedes (Settled lib (Normal tt)) (Called db Load None) tr /\
  precedes (Settled db (Normal tt)) (Called domain Load None) tr /\
  In api_load tr /\
  (forall p, In p [schemas; static; resources] ->
     precedes (Settled p (load_settles w p)) api_load tr) /\
  (forall e, In e (chain_pending w) -> precedes e api_load tr) /\
  (forall f, In f (starts app) ->
     precedes (Invoked f) api_load tr /\ precedes (Finished f) api_load tr) /\
  (In (Called scheduler Load None) tr -> kind' = "scheduler") /\
  (kind' = "scheduler" -> load_settles w api = Normal tt ->
     In (Called scheduler Load None) tr) /\
  precedes (Settled api (Normal tt)) (Called scheduler Load None) tr.
Proof.
  intros Hcfg tr api_load. unfold tr.
  assert (Hbefore : forall e, In e (early_events w cfg app) ->
            precedes e api_load (trace (init w kind' app))).
  { intros e He. rewrite (init_trace_parts _ _ _ _ Hcfg).
    apply guarded_after; [|exact He].
    intros Hin. apply early_events_kind in Hin. discriminate Hin. }
  assert (Hfan : forall e, In e (fanout_events w) ->
            In e (early_events w cfg app)).
  { intros e He. unfold early_events. rewrite !in_app_iff. auto. }
  assert (Hst : forall e, In e (starts_events w app) ->
            In e (early_events w cfg app)).
  { intros e He. unfold early_events. rewrite !in_app_iff. auto. }
  repeat split.
  - apply (in_chain_order _ _ _ _ _ _ Hcfg);
      [apply (proj1 (fanout_chain_order w))|reflexivity..].
  - apply (in_chain_order _ _ _ _ _ _ Hcfg);
      [apply (proj2 (fanout_chain_order w))|reflexivity..].
  - rewrite (init_trace_parts _ _ _ _ Hcfg), !in_app_iff.
    right. left. now left.
  - intros p Hp. apply Hbefore, Hfan.
    apply fanout_complete. cbn in Hp |- *. intuition.
  - intros e He. apply Hbefore, Hfan.
    rewrite fanout_events_spec. apply in_app_iff. right.
    apply weave_events. cbn [concat]. rewrite !in_app_iff. auto.
  - apply Hbefore, Hst. now apply starts_complete.
  - apply Hbefore, Hst. now apply starts_complete.
  - rewrite (init_trace_parts _ _ _ _ Hcfg), !in_app_iff.
    intros [H|[H|H]].
    + apply early_events_kind in H. discriminate H.
    + cbn in H. intuition discriminate.
    + unfold late_events in H.
      assert (Hs : In (Called scheduler Load None) (scheduler_events w kind')).
      { destruct (load_settles w api); [|destruct H].
        destruct (scheduler_settles w kind'); [|exact H].
        apply in_app_iff in H as [H|H]; [exact H|].
        apply False_ind. unfold bootstrap_events in H.
        destruct (published_auth w) as [[[q|]]|]; cbn in H;
          intuition discriminate. }
      unfold scheduler_events in Hs.
      destruct (String.eqb_spec kind' "scheduler"); [assumption|destruct Hs].
  - intros -> Hapi. rewrite (init_trace_parts _ _ _ _ Hcfg), !in_app_iff.
    right. right. unfold late_events. rewrite Hapi.
    destruct (scheduler_settles w "scheduler");
      rewrite ?in_app_iff; [left|]; now left.
  - rewrite (init_trace_parts _ _ _ _ Hcfg). unfold precedes.
    destruct (load_settles w api) as [[]|e] eqn:Hapi.
    + rewrite app_assoc. apply guarded_after.
      * rewrite in_app_iff. intros [H|H].
        -- apply early_events_kind in H. discriminate H.
        -- cbn in H. intuition discriminate.
      * rewrite in_app_iff. right. right. now left.
    + apply guarded_absent. rewrite !in_app_iff. intros [H|[H|H]].
      * apply early_events_kind in H. discriminate H.
      * cbn in H. intuition discriminate.
      * unfold late_events in H. rewrite Hapi in H. destruct H.
Qed.

Lemma init_load_order_witness :
  precedes (Settled lib (Normal tt)) (Called db Load None)
    (trace (init world_with_provider "scheduler" app_with_hooks)) /\
  In (Called scheduler Load None)
    (trace (init world_with_provider "scheduler" app_with_hooks)).
Proof.
  destruct (init_load_order world_with_provider "scheduler" app_with_hooks
              sample_config eq_refl)
    as (Hlib & _ & _ & _ & _ & _ & _ & Hsched & _).
  split; [exact Hlib|]. apply Hsched; reflexivity.
Defined.

(** C8 as stated fails: with kind 'scheduler' and an api place whose
    load rejects, the scheduler place is never loaded. *)
Lemma scheduler_not_loaded_when_api_fails :
  result (init world_api_fails "scheduler" sample_app) = Throw load_error /\
  ~ In (Called scheduler Load None)
      (trace (init world_api_fails "scheduler" sample_app)).
Proof.
  rewrite (init_run world_api_fails "scheduler" sample_app sample_config eq_refl).
  split; [reflexivity|].
  cbn. intuition discriminate.
Qed.





(** ** Auth bootstrap *)

Lemma created_app tr1 tr2 : created (tr1 ++ tr2) = created tr1 ++ created tr2.
Proof. unfold created. apply flat_map_app. Qed.

Lemma created_none tr :
  (forall s r, ~ In (AuthCreated s r) tr) -> created tr = [].
Proof.
  induction tr as [|e tr IH]; intros H; [reflexivity|].
  change (created (e :: tr))
    with (match e with AuthCreated s r => [(s, r)] | _ => [] end
          ++ created tr).
  rewrite IH.
  - destruct e; try reflexivity. exfalso. eapply H. now left.
  - intros s r Hin. eapply H. right. exact Hin.
Qed.

Lemma created_to_api w cfg app : created (events_to_api w cfg app) = [].
Proof.
  apply created_none. intros s r H.
  change (events_to_api w cfg app)
    with ([WatcherCreated (watch_timeout cfg)]
          ++ fanout_events w ++ starts_events w app
          ++ [Called api Load None; Settled api (load_settles w api)]) in H.
  rewrite !in_app_iff in H. destruct H as [H|[H|[H|H]]].
  - destruct H as [H|[]]. discriminate H.
  - apply fanout_events_kind in H. discriminate H.
  - apply starts_events_kind in H. discriminate H.
  - cbn in H. intuition discriminate.
Qed.

Lemma created_scheduler w kind' : created (scheduler_events w kind') = [].
Proof. unfold scheduler_events. destruct (String.eqb kind' "scheduler"); reflexivity. Qed.

(** C6: the auth bootstrap, in an [init] that completes.  When the api
    place has published an [auth] section with a provider [P], the auth
    of the application is [P] and no provider is constructed.  When the
    section has no provider, one provider is constructed, from the
    session configuration, and that one object is both the auth of the
    application and [api.auth.provider].  Without an [auth] section
    nothing is constructed and the auth of the application is what it
    was: [null], as [new Application()] leaves it. *)
Theorem auth_bootstrap_cases w kind' app :
  let r := init w kind' app in
  result r = Normal tt ->
  match published_auth w with
  | Some {| provider := Some P |} =>
      auth (final r) = Some P /\ created (trace r) = []
  | Some {| provider := None |} =>
      exists cfg p,
        config app = Some cfg /\
        created (trace r) = [(sessions cfg, p)] /\
        auth (final r) = Some p /\
        (sandbox (final r) ≫= api_auth) ≫= provider = Some p
  | None =>
      auth (final r) = auth app /\ created (trace r) = []
  end /\
  (forall app_path, auth (new_Application app_path) = None).
Proof.
  intros r. unfold r. destruct (config app) as [cfg|] eqn:Hcfg.
  - rewrite (init_run _ _ _ _ Hcfg).
    destruct (load_settles w api) as [[]|e]; [|discriminate].
    destruct (scheduler_settles w kind') as [[]|e]; [|discriminate].
    intros _. cbn [result trace final].
    rewrite !created_app, created_to_api, created_scheduler.
    unfold initialized, bootstrapped, bootstrap_events, publish.
    split; [|reflexivity].
    destruct (published_auth w) as [[[P|]]|]; cbn.
    + split; reflexivity.
    + exists cfg. eexists. repeat split; reflexivity.
    + split; reflexivity.
  - unfold init. rewrite bind_modify. cbv beta.
    erewrite bind_abrupt.
    2:{ unfold startWatch. rewrite bind_get.
        change (config (set_kind kind' app)) with (config app).
        rewrite Hcfg. reflexivity. }
    discriminate.
Qed.

Lemma auth_bootstrap_cases_witness :
  auth (final (init world_with_provider "server" sample_app)) = Some 7%nat /\
  created (trace (init world_with_provider "server" sample_app)) = [].
Proof.
  destruct (auth_bootstrap_cases world_with_provider "server" sample_app)
    as (H & _); [reflexivity|].
  exact H.
Defined.

(** ** Shutdown *)




Lemma stop_modules_state modules app : final (stop_modules modules app) = app.
Proof.
  induction modules as [|[name module] modules IH]; [reflexivity|].
  cbn [stop_modules]. destruct module as [[f|]]; cbn [stop].
  - destruct (settles (execute app f)) as [[]|e] eqn:Hs.
    + erewrite bind_step
        by (rewrite bind_get, await_run, Hs; reflexivity).
      exact IH.
    + erewrite bind_abrupt
        by (rewrite bind_get, await_run, Hs; reflexivity).
      reflexivity.
  - rewrite bind_ret. exact IH.
Qed.


Lemma stopPlace_state name app : final (stopPlace name app) = app.
Proof.
  unfold stopPlace. rewrite bind_get.
  destruct (sandbox app); [apply stop_modules_state|reflexivity].
Qed.









(** * Further properties *)

(** ** Version strings *)

(** X1: [getMethod] with the version ['*'] is a lookup in what [getHook]
    returns: what the hook object holds under the method name, and
    [null] when [getHook] returns [null].  [getHook] never throws, and
    returns [null] exactly when the interface is unregistered or holds
    nothing under the string of its default version.  The two part ways
    on a name that is unregistered but inherited from
    [Object.prototype]: [getHook] returns [null] and [getMethod]
    throws. *)
Theorem getMethod_star_through_getHook reg I m :
  (exists hook, getHook reg I = Normal hook) /\
  (getHook reg I = Normal None <->
   collection reg !! I = None \/
   exists iface,
     collection reg !! I = Some iface /\
     iface_versions iface !! toString (Int (iface_default iface)) = None) /\
  (~ raises reg I "*" ->
   getMethod reg I "*" m
   = match getHook reg I with
     | Normal (Some hook) => Normal (get_property hook m)
     | Normal None => Normal None
     | Throw e => Throw e
     end) /\
  (raises reg I "*" ->
   getHook reg I = Normal None /\ unchecked_fault (getMethod reg I "*" m)).
Proof.
  unfold getHook, getMethod, raises, get_property.
  change (String.eqb "*" "*") with true. cbv iota.
  destruct (collection reg !! I) as [iface|] eqn:HI.
  - destruct (iface_versions iface !! _) as [hook|] eqn:Hv.
    + split; [eauto|]. split; [|split].
      * split; [discriminate|].
        intros [H|(iface' & [= <-] & H)]; [discriminate H|].
        rewrite Hv in H. discriminate H.
      * intros _. destruct (hook !! m) as [proc|]; [reflexivity|].
        destruct (inherited m); reflexivity.
      * intros (H & _). discriminate H.
    + split; [eauto|]. split; [|split].
      * split; [|reflexivity]. eauto.
      * reflexivity.
      * intros (H & _). discriminate H.
  - destruct (inherited I) eqn:Hi.
    + split; [eauto|]. split; [|split].
      * split; [auto|reflexivity].
      * intros H. destruct H. auto.
      * intros _. split; [reflexivity|]. eexists. split; reflexivity.
    + split; [eauto|]. split; [|split].
      * split; [auto|reflexivity].
      * reflexivity.
      * intros (_ & H & _). discriminate H.
Qed.

Lemma getMethod_star_through_getHook_witness :
  getMethod sample_api "auth" "*" "login" = Normal (Some (Stored (Proc 2))) /\
  getHook sample_api "constructor" = Normal None /\
  unchecked_fault (getMethod sample_api "constructor" "*" "login").
Proof.
  destruct (getMethod_star_through_getHook sample_api "auth" "login")
    as (_ & _ & Hget & _).
  destruct (getMethod_star_through_getHook sample_api "constructor" "login")
    as (_ & _ & _ & Hraise).
  split.
  - rewrite Hget; [reflexivity|]. intros (H & _). discriminate H.
  - apply Hraise. repeat split; reflexivity.
Defined.

(** X2: the methods stored under the string of an integer version of
    magnitude below 10^21, negative ones included, are the ones
    [getMethod] reads for that string: it returns what they hold under
    the method name. *)
Theorem getMethod_explicit_version reg I iface n methods m :
  collection reg !! I = Some iface ->
  is_double n -> Z.abs n < 10 ^ 21 ->
  iface_versions iface !! toString (Int n) = Some methods ->
  getMethod reg I (toString (Int n)) m = Normal (get_property methods m).
Proof.
  intros HI Hdouble Hn Hv.
  destruct (toString_round_trip n Hdouble Hn) as (Hstar & _ & Hparse & _).
  rewrite (getMethod_registered _ _ _ _ _ HI). unfold resolved_version.
  rewrite Hstar, Hparse, Hv. reflexivity.
Qed.

Lemma getMethod_explicit_version_witness :
  getMethod sample_api "auth" "1" "login" = Normal (Some (Stored (Proc 1))).
Proof.
  exact (getMethod_explicit_version sample_api "auth"
           {| iface_default := 2;
              iface_versions :=
                {[ "1" := {[ "login" := Proc 1 ]};
                   "2" := {[ "login" := Proc 2 ]} ]} |}
           1 {[ "login" := Proc 1 ]} "login"
           eq_refl eq_refl eq_refl eq_refl).
Defined.

(** X3: [getMethod] makes nothing up.  Whatever it returns, the
    interface is registered and holds methods under a key that is the
    string of a number; what is returned is the procedure those methods
    store under the method name or, when they store none, the member of
    [Object.prototype] of that name. *)
Theorem getMethod_returns_stored reg I ver m found :
  getMethod reg I ver m = Normal (Some found) ->
  exists iface version methods,
    collection reg !! I = Some iface /\
    iface_versions iface !! toString version = Some methods /\
    match found with
    | Stored proc => methods !! m = Some proc
    | Builtin name => name = m /\ methods !! m = None /\ inherited m = true
    end.
Proof.
  unfold getMethod, get_property.
  destruct (collection reg !! I) as [iface|].
  - destruct (iface_versions iface !! _) as [methods|] eqn:Hv; [|discriminate].
    intros H. eexists iface, _, methods.
    split; [reflexivity|]. split; [exact Hv|].
    destruct (methods !! m) as [proc|].
    + injection H as <-. reflexivity.
    + destruct (inherited m); [|discriminate H].
      injection H as <-. auto.
  - destruct (inherited I); [|discriminate].
    destruct (String.eqb ver "*"); discriminate.
Qed.

Lemma getMethod_returns_stored_witness :
  exists iface version methods,
    collection sample_api !! "auth" = Some iface /\
    iface_versions iface !! toString version = Some methods /\
    methods !! "login" = Some (Proc 2).
Proof.
  apply (getMethod_returns_stored sample_api "auth" "*" "login"
           (Stored (Proc 2))).
  reflexivity.
Defined.

(** X4: [getMethod] reads a version string up to its first character
    that is no digit: after the string of an integer, and after the
    decimal numeral of any integer, a suffix that does not begin with a
    digit changes nothing (['2abc'] and ['2.5'] are version 2). *)
Theorem getMethod_ignores_version_suffix reg I n suffix m :
  starts_with_digit 10 suffix = false ->
  getMethod reg I (toString (Int n) +:+ suffix) m
  = getMethod reg I (toString (Int n)) m /\
  getMethod reg I (Z_toString n +:+ suffix) m
  = getMethod reg I (Z_toString n) m.
Proof.
  intros Hsuffix. split.
  - destruct (parseInt_number_suffix n suffix Hsuffix) as (Hp & Hs & Hs0).
    rewrite (getMethod_explicit _ _ _ _ Hs), (getMethod_explicit _ _ _ _ Hs0).
    rewrite Hp. reflexivity.
  - rewrite (getMethod_explicit _ _ _ _ (Z_toString_suffix_not_star _ _)).
    rewrite (getMethod_explicit _ _ _ _ (Z_toString_not_star _)).
    rewrite (parseInt_Z_toString_suffix _ _ Hsuffix), parseInt_Z_toString.
    reflexivity.
Qed.

Lemma getMethod_ignores_version_suffix_witness :
  getMethod sample_api "auth" "1.5" "login" = Normal (Some (Stored (Proc 1))).
Proof.
  exact (eq_trans
           (proj1 (getMethod_ignores_version_suffix sample_api "auth" 1 ".5"
                     "login" eq_refl))
           eq_refl).
Defined.

(** ** Hexadecimal versions *)

Lemma parseInt_hex_radix_10 rest : parseInt ("0x" +:+ rest) (Some 10) = Int 0.
Proof. reflexivity. Qed.

Lemma parseInt_hex_default_radix rest :
  parseInt ("0x" +:+ rest) None
  = match radix_digits 16 rest with
    | [] => NaN
    | ds => to_double (1 * mathInt 16 ds)
    end.
Proof. reflexivity. Qed.

(** X5: [getMethod] parses the version under radix 10 and [introspect]
    under the default radix, so that a version written in hexadecimal is
    not the same version for both: ['0x...'] is version 0 for
    [getMethod], and for [introspect] the double nearest to the number
    its hexadecimal digits denote (['0x10'] is 16). *)
Theorem hexadecimal_version reg I iface rest m :
  collection reg !! I = Some iface ->
  interface_name I ->
  String.eqb I "__proto__" = false ->
  indexOf rest "." = -1 ->
  radix_digits 16 rest <> [] ->
  getMethod reg I ("0x" +:+ rest) m = getMethod reg I "0" m /\
  introspect reg [I +:+ ".0x" +:+ rest]
  = Normal (mkIntro
              {[ I := signatures reg
                        !! (I +:+ "." +:+
                            toString (to_double
                                        (mathInt 16 (radix_digits 16 rest)))) ]}
              None).
Proof.
  intros HI Hname Hproto Hrest Hhex. split.
  - rewrite !(getMethod_registered _ _ _ _ _ HI). unfold resolved_version.
    change (String.eqb ("0x" +:+ rest) "*") with false.
    change (String.eqb "0" "*") with false. cbv iota.
    rewrite parseInt_hex_radix_10. reflexivity.
  - change (I +:+ ".0x" +:+ rest) with (I +:+ "." +:+ ("0x" +:+ rest)).
    rewrite (introspect_entry reg I iface _ Hname Hproto HI).
    assert (Hdot : indexOf ("0x" +:+ rest) "." = -1).
    { change ("0x" +:+ rest) with (String "0" (String "x" rest)).
      cbn [indexOf]. rewrite Hrest. reflexivity. }
    rewrite (split_without_separator _ _ Hdot). cbn [hd].
    unfold resolved_version.
    change (String.eqb ("0x" +:+ rest) "*") with false. cbv iota.
    rewrite parseInt_hex_default_radix.
    destruct (radix_digits 16 rest) as [|d ds]; [congruence|].
    replace (1 * mathInt 16 (d :: ds)) with (mathInt 16 (d :: ds)) by lia.
    reflexivity.
Qed.

Lemma hexadecimal_version_witness :
  getMethod sample_api_hex "auth" "0x10" "login"
  = Normal (Some (Stored (Proc 0))) /\
  introspect sample_api_hex ["auth.0x10"]
  = Normal (mkIntro {[ "auth" := Some (Sig 16) ]} None).
Proof.
  destruct (hexadecimal_version sample_api_hex "auth"
              {| iface_default := 16;
                 iface_versions :=
                   {[ "0" := {[ "login" := Proc 0 ]};
                      "16" := {[ "login" := Proc 16 ]} ]} |}
              "10" "login" eq_refl eq_refl eq_refl eq_refl)
    as [Hget Hintro]; [discriminate|].
  split.
  - exact (eq_trans Hget eq_refl).
  - exact (eq_trans Hintro eq_refl).
Defined.

(** ** Lists of entries *)

Lemma introspect_step_spec reg intro entry :
  introspect_step reg intro entry
  = match get_property (collection reg) (entry_name entry) with
    | None => intro
    | Some iface =>
        assign intro (entry_name entry)
          (signatures reg !! entry_key iface entry)
    end.
Proof. reflexivity. Qed.

Lemma entry_key_registered reg iface entry :
  signatures reg !! entry_key (Stored iface) entry
  = entry_signature reg iface entry.
Proof.
  unfold entry_key, entry_signature, resolved_version.
  destruct (String.eqb (entry_version entry) "*"); reflexivity.
Qed.

Lemma introspect_app reg entries1 entries2 :
  introspect reg (entries1 ++ entries2)
  = Normal (fold_left (introspect_step reg) entries2
              (fold_left (introspect_step reg) entries1 empty_object)).
Proof. unfold introspect. now rewrite fold_left_app. Qed.

Lemma assign_keys intro key value k :
  is_Some (own (assign intro key value) !! k) ->
  is_Some (own intro !! k) \/ (k = key /\ key <> "__proto__").
Proof.
  unfold assign. destruct (String.eqb_spec key "__proto__") as [->|Hkey].
  - destruct value; cbn [own]; auto.
  - cbn [own]. destruct (decide (key = k)) as [<-|Hne]; [auto|].
    rewrite lookup_insert_ne by assumption. auto.
Qed.

Lemma introspect_fold_keys reg entries : forall intro k,
  is_Some (own (fold_left (introspect_step reg) entries intro) !! k) ->
  is_Some (own intro !! k) \/
  (is_Some (get_property (collection reg) k) /\ k <> "__proto__" /\
   exists entry, In entry entries /\ entry_name entry = k).
Proof.
  induction entries as [|entry entries IH]; intros intro k H; [now left|].
  cbn [fold_left] in H. apply IH in H as [H|(Hreg & Hk & e & He & Hname)].
  - rewrite introspect_step_spec in H.
    destruct (get_property (collection reg) (entry_name entry))
      as [iface|] eqn:Hc; [|now left].
    apply assign_keys in H as [H|[-> Hproto]]; [now left|].
    right. split; [rewrite Hc; eauto|]. split; [assumption|].
    exists entry. split; [now left|reflexivity].
  - right. split; [assumption|]. split; [assumption|].
    exists e. split; [now right|assumption].
Qed.

(** X6: every key of the object [introspect] returns is the name of one
    of the entries asked for, and a name under which the collection has
    something to read: a registered interface, or a property inherited
    from [Object.prototype] other than [__proto__].  No other name ever
    shows up, whatever the list. *)
Theorem introspect_keys_come_from_entries reg entries intro k :
  introspect reg entries = Normal intro ->
  is_Some (own intro !! k) ->
  (is_Some (collection reg !! k) \/ inherited k = true) /\
  k <> "__proto__" /\
  exists entry, In entry entries /\ entry_name entry = k.
Proof.
  intros [= <-] H. apply introspect_fold_keys in H as [H|(H & Hk & He)].
  - cbn [own empty_object] in H. rewrite lookup_empty in H.
    destruct H as [x H]. discriminate H.
  - split; [|auto]. unfold get_property in H.
    destruct (collection reg !! k); [left; eauto|].
    destruct (inherited k); [now right|]. destruct H as [x H]. discriminate H.
Qed.

Lemma introspect_keys_come_from_entries_witness :
  (is_Some (collection sample_api !! "auth") \/ inherited "auth" = true) /\
  "auth" <> "__proto__" /\
  exists entry, In entry ["files.1"; "auth.7"] /\ entry_name entry = "auth".
Proof.
  apply (introspect_keys_come_from_entries sample_api ["files.1"; "auth.7"]
           (mkIntro {[ "auth" := None ]} None) "auth").
  - reflexivity.
  - exists None. reflexivity.
Defined.

(** X7: the object holds one value for each interface name, that of the
    last entry that names it: a later entry for a registered interface
    replaces what an earlier one stored under the name, and leaves every
    other key as it was.  (Under the name [__proto__] the assignment
    sets no key: it leaves the keys as they were and makes the signature,
    when there is one, the prototype of the object.) *)
Theorem introspect_last_entry_wins reg entries entry iface before after :
  collection reg !! entry_name entry = Some iface ->
  introspect reg entries = Normal before ->
  introspect reg (entries ++ [entry]) = Normal after ->
  (entry_name entry <> "__proto__" ->
   own after !! entry_name entry = Some (entry_signature reg iface entry) /\
   (forall k, k <> entry_name entry -> own after !! k = own before !! k) /\
   prototype after = prototype before) /\
  (entry_name entry = "__proto__" ->
   own after = own before /\
   prototype after
   = match entry_signature reg iface entry with
     | Some sig => Some sig
     | None => prototype before
     end).
Proof.
  intros Hc [= <-]. rewrite introspect_app. intros [= <-].
  cbn [fold_left].
  rewrite introspect_step_spec, (get_property_own _ _ _ Hc).
  rewrite entry_key_registered. unfold assign.
  destruct (String.eqb_spec (entry_name entry) "__proto__") as [Hp|Hp].
  - split; [congruence|]. intros _.
    destruct (entry_signature reg iface entry); split; reflexivity.
  - split; [|congruence]. intros _. cbn [own prototype].
    split; [apply lookup_insert_eq|]. split; [|reflexivity].
    intros k Hk. apply lookup_insert_ne. congruence.
Qed.

Lemma introspect_last_entry_wins_witness :
  own (mkIntro {[ "auth" := Some (Sig 7) ]} None) !! "auth"
  = Some (Some (Sig 7)).
Proof.
  destruct (introspect_last_entry_wins sample_api ["auth.1"] "auth.2"
              {| iface_default := 2;
                 iface_versions :=
                   {[ "1" := {[ "login" := Proc 1 ]};
                      "2" := {[ "login" := Proc 2 ]} ]} |}
              (mkIntro {[ "auth" := None ]} None)
              (mkIntro {[ "auth" := Some (Sig 7) ]} None)
              eq_refl eq_refl eq_refl) as [H _].
  destruct H as [H _]; [discriminate|].
  exact H.
Defined.

(** X8: an entry under whose name the collection has nothing to read (a
    name that is neither registered nor inherited from
    [Object.prototype]) is skipped wherever it stands in the list: the
    result is that of the list without it. *)
Theorem introspect_skips_unregistered reg entries1 entry entries2 :
  collection reg !! entry_name entry = None ->
  inherited (entry_name entry) = false ->
  introspect reg (entries1 ++ entry :: entries2)
  = introspect reg (entries1 ++ entries2).
Proof.
  intros Hc Hi. rewrite !introspect_app. cbn [fold_left].
  rewrite introspect_step_spec, (get_property_undefined _ _ Hc Hi).
  reflexivity.
Qed.

Lemma introspect_skips_unregistered_witness :
  introspect sample_api ["auth.1"; "files.3"; "auth"]
  = introspect sample_api ["auth.1"; "auth"].
Proof.
  exact (introspect_skips_unregistered sample_api ["auth.1"] "files.3" ["auth"]
           eq_refl eq_refl).
Defined.

(** X9: for a registered interface name whose default version [d] is an
    integer of magnitude below 10^21, the entries ['I'], ['I.*'] and
    ['I.d'] give the same object: the name mapped to the signature
    stored under ['I.d']. *)
Theorem introspect_default_version reg I iface :
  interface_name I ->
  String.eqb I "__proto__" = false ->
  collection reg !! I = Some iface ->
  is_double (iface_default iface) ->
  Z.abs (iface_default iface) < 10 ^ 21 ->
  let d := toString (Int (iface_default iface)) in
  introspect reg [I]
  = Normal (mkIntro {[ I := signatures reg !! (I +:+ "." +:+ d) ]} None) /\
  introspect reg [I +:+ ".*"] = introspect reg [I] /\
  introspect reg [I +:+ "." +:+ d] = introspect reg [I].
Proof.
  intros Hname Hproto HI Hdouble Hd d.
  assert (Hbare : introspect reg [I]
                  = Normal (mkIntro
                              {[ I := signatures reg !! (I +:+ "." +:+ d) ]}
                              None)).
  { rewrite introspect_one. unfold introspect_step.
    rewrite (split_without_separator _ _ Hname). cbn [hd].
    rewrite (get_property_own _ _ _ HI).
    change (String.eqb "*" "*") with true. cbv iota.
    apply f_equal, assign_fresh, Hproto. }
  split; [exact Hbare|]. rewrite Hbare. split.
  - change (I +:+ ".*") with (I +:+ "." +:+ "*").
    rewrite (introspect_entry reg I iface "*" Hname Hproto HI). reflexivity.
  - rewrite (introspect_entry reg I iface d Hname Hproto HI).
    destruct (toString_round_trip _ Hdouble Hd)
      as (Hstar & Hdot & _ & Hparse).
    unfold d. rewrite (split_without_separator _ _ Hdot).
    cbn [hd]. unfold resolved_version.
    rewrite Hstar, Hparse. reflexivity.
Qed.

Lemma introspect_default_version_witness :
  introspect sample_api ["auth"]
  = Normal (mkIntro {[ "auth" := Some (Sig 7) ]} None) /\
  introspect sample_api ["auth.*"] = introspect sample_api ["auth"] /\
  introspect sample_api ["auth.2"] = introspect sample_api ["auth"].
Proof.
  exact (introspect_default_version sample_api "auth"
           {| iface_default := 2;
              iface_versions :=
                {[ "1" := {[ "login" := Proc 1 ]};
                   "2" := {[ "login" := Proc 2 ]} ]} |}
           eq_refl eq_refl eq_refl eq_refl eq_refl).
Defined.

(** ** The listeners of the watcher, further *)

(** X10: a delete event on a path under a known place makes one call,
    [place.delete(path)] on the place that owns the path, whatever the
    file system says of the path; the debug line follows the call, in
    the worker of thread identity 1 and in no other, and the listener
    throws there, after the call, when no console is installed.  Under
    the scheduler, which has no [delete], the listener throws at once
    and nothing is called. *)
Theorem delete_event_routing w app p rest :
  let relPath := place_name p +:+ String (sep (platform w)) rest in
  let filePath := path app +:+ String (sep (platform w)) relPath in
  on_delete w filePath app
  = if has_method p Delete
    then match threadId w =? 1, console app with
         | true, None =>
             mkRun [Called p Delete (Some filePath)] app
               (Throw (TypeError
                         "Cannot read properties of null (reading 'debug')"))
         | logs, _ =>
             mkRun
               ([Called p Delete (Some filePath)]
                ++ if logs then [ConsoleDebug ("Deleted: /" +:+ relPath)]
                   else [])
               app (Normal tt)
         end
    else mkRun [] app
           (Throw (TypeError "this[place].delete is not a function")).
Proof.
  intros relPath filePath. subst relPath filePath.
  destruct (first_component_of_path w app (place_name p) rest
              (place_name_no_separator _ _)) as [Hrel Hfirst].
  rewrite on_delete_run, Hfirst, Hrel.
  destruct (has_method p Delete) eqn:Hm.
  - erewrite bind_step by (rewrite call_place_run, Hm; reflexivity).
    cbv beta. destruct (threadId w =? 1).
    + rewrite console_debug_run. destruct (console app); reflexivity.
    + destruct (console app); reflexivity.
  - erewrite bind_abrupt by (rewrite call_place_run, Hm; reflexivity).
    reflexivity.
Qed.

Lemma delete_event_routing_witness :
  on_delete sample_world "/srv/application/db/gone.js" sample_app
  = mkRun [Called db Delete (Some "/srv/application/db/gone.js");
           ConsoleDebug "Deleted: /db/gone.js"]
      sample_app (Normal tt).
Proof.
  exact (delete_event_routing sample_world sample_app db "gone.js").
Defined.

(** X11: the two listeners order the debug line and the call
    differently.  In the worker of thread identity 1 with no console, a
    delete event under a place that has [delete] is still forwarded to
    the place before the listener throws, while a change event on a file
    is not forwarded at all. *)
Theorem log_failure_drops_change_not_delete w app p rest :
  let filePath :=
    path app +:+ String (sep (platform w))
      (place_name p +:+ String (sep (platform w)) rest) in
  threadId w = 1 -> console app = None -> stat w filePath = Some false ->
  has_method p Delete = true ->
  (trace (on_delete w filePath app) = [Called p Delete (Some filePath)] /\
   exists e, result (on_delete w filePath app) = Throw e) /\
  (trace (on_change w filePath app) = [] /\
   exists e, result (on_change w filePath app) = Throw e).
Proof.
  intros filePath Hid Hconsole Hstat Hm.
  destruct (first_component_of_path w app (place_name p) rest
              (place_name_no_separator _ _)) as [Hrel Hfirst].
  fold filePath in Hrel, Hfirst.
  assert (Hdebug : forall text,
            console_debug text app
            = mkRun [] app
                (Throw (TypeError
                   "Cannot read properties of null (reading 'debug')")))
    by (intros text; rewrite console_debug_run, Hconsole; reflexivity).
  split.
  - rewrite on_delete_run, Hfirst, Hid.
    erewrite bind_step by (rewrite call_place_run, Hm; reflexivity).
    cbv beta. change (1 =? 1) with true. cbv iota. rewrite Hdebug.
    split; [reflexivity|cbn; eauto].
  - rewrite on_change_run, Hstat, Hid.
    change (1 =? 1) with true. cbv iota.
    rewrite (bind_abrupt _ _ _ _ _ _ (Hdebug _)).
    split; [reflexivity|cbn; eauto].
Qed.

Lemma log_failure_drops_change_not_delete_witness :
  trace (on_delete sample_world "/srv/application/lib/foo.js"
           app_without_console)
  = [Called lib Delete (Some "/srv/application/lib/foo.js")] /\
  trace (on_change sample_world "/srv/application/lib/foo.js"
           app_without_console) = [].
Proof.
  destruct (log_failure_drops_change_not_delete sample_world
              app_without_console lib "foo.js" eq_refl eq_refl eq_refl eq_refl)
    as [[Hdel _] [Hch _]].
  split; [exact Hdel|exact Hch].
Defined.

Lemma substring_to_negative s : substring s 0 (-1) = EmptyString.
Proof.
  unfold substring.
  replace (Z.max 0 (Z.min 0 (Z.of_nat (String.length s)))) with 0 by lia.
  replace (Z.max 0 (Z.min (-1) (Z.of_nat (String.length s)))) with 0 by lia.
  reflexivity.
Qed.

(** X12: an event on an entry that lies directly in the application
    directory, with no separator after its name, is never routed, be its
    name that of a place: both listeners take the empty string for the
    place.  The delete listener throws, and so does the change listener
    unless the stat fails; no place is called. *)
Theorem top_level_event_not_routed w app name :
  indexOf name (sep (platform w)) = -1 ->
  let filePath := path app +:+ String (sep (platform w)) name in
  first_component w app filePath = EmptyString /\
  (trace (on_delete w filePath app) = [] /\
   exists e, result (on_delete w filePath app) = Throw e) /\
  (stat w filePath <> None ->
   no_place_call (trace (on_change w filePath app)) /\
   exists e, result (on_change w filePath app) = Throw e).
Proof.
  intros Hname filePath.
  assert (Hfirst : first_component w app filePath = EmptyString).
  { unfold first_component, relative_path, filePath.
    rewrite substring_from_after, Hname. apply substring_to_negative. }
  split; [exact Hfirst|]. split.
  - rewrite on_delete_run, Hfirst. split; [reflexivity|cbn; eauto].
  - intros Hstat. rewrite on_change_run, Hfirst.
    destruct (stat w filePath) as [[|]|]; [| |congruence].
    + split; [intros p m arg []|cbn; eauto].
    + destruct (threadId w =? 1).
      * destruct (console app) as [c|] eqn:Hc.
        -- erewrite bind_normal
             by (rewrite console_debug_run, Hc; reflexivity).
           split; [|cbn; eauto]. intros p m arg [H|[]]. discriminate H.
        -- erewrite bind_abrupt
             by (rewrite console_debug_run, Hc; reflexivity).
           split; [intros p m arg []|cbn; eauto].
      * split; [intros p m arg []|cbn; eauto].
Qed.

Lemma top_level_event_not_routed_witness :
  first_component sample_world sample_app "/srv/application/lib" = EmptyString /\
  trace (on_delete sample_world "/srv/application/lib" sample_app) = [].
Proof.
  destruct (top_level_event_not_routed sample_world sample_app "lib" eq_refl)
    as (Hfirst & [Htrace _] & _).
  split; [exact Hfirst|exact Htrace].
Defined.

(** X13: the listeners do not check that the path of an event lies under
    the application directory: of [this.path] they use the length only.
    A path with any prefix of that length, and any character where the
    separator would be, is routed by the component that follows: a
    delete event is forwarded to the place of that name, when the place
    has [delete]. *)
Theorem routing_uses_the_length_of_the_path w app prefix c p rest :
  String.length prefix = String.length (path app) ->
  let filePath :=
    prefix +:+ String c (place_name p +:+ String (sep (platform w)) rest) in
  first_component w app filePath = place_name p /\
  (has_method p Delete = true ->
   In (Called p Delete (Some filePath)) (trace (on_delete w filePath app))).
Proof.
  intros Hlen filePath.
  assert (Hrel : relative_path app filePath
                 = place_name p +:+ String (sep (platform w)) rest).
  { unfold relative_path, filePath. rewrite <- Hlen.
    apply substring_from_after. }
  assert (Hfirst : first_component w app filePath = place_name p).
  { unfold first_component. rewrite Hrel.
    rewrite (indexOf_at_separator _ _ _ (place_name_no_separator _ _)).
    apply substring_prefix. }
  split; [exact Hfirst|]. intros Hm.
  rewrite on_delete_run, Hfirst.
  erewrite bind_step by (rewrite call_place_run, Hm; reflexivity).
  cbn [prepend trace]. now left.
Qed.

Lemma routing_uses_the_length_of_the_path_witness :
  In (Called db Delete (Some "/tmp/elsewhere00_db/x.js"))
    (trace (on_delete sample_world "/tmp/elsewhere00_db/x.js" sample_app)).
Proof.
  destruct (routing_uses_the_length_of_the_path sample_world sample_app
              "/tmp/elsewhere00" "_" db "x.js" eq_refl) as [_ H].
  exact (H eq_refl).
Defined.

(** ** Start-up, further *)

Lemma count_app P tr1 tr2 :
  count P (tr1 ++ tr2) = (count P tr1 + count P tr2)%nat.
Proof.
  induction tr1 as [|e tr1 IH]; [reflexivity|].
  cbn [app count]. rewrite IH. lia.
Qed.

Lemma count_weave P sched : forall ts,
  count P (weave sched ts) = count P (concat ts).
Proof.
  induction sched as [|k sched IH]; intros ts; [reflexivity|].
  cbn [weave]. destruct (pick k ts) as [[e ts']|] eqn:Hp; [|apply IH].
  destruct (pick_spec _ _ _ _ Hp) as (pre & t & post & -> & ->).
  cbn [count]. rewrite IH, !concat_app. cbn [concat].
  rewrite !count_app. cbn [app count]. rewrite ?count_app. lia.
Qed.

Lemma count_other_kind (kindof P : Event -> bool) tr :
  (forall e, In e tr -> kindof e = true) ->
  (forall e, kindof e = true -> P e = false) ->
  count P tr = O.
Proof.
  intros Hkind Hother. induction tr as [|e tr IH]; [reflexivity|].
  cbn [count]. rewrite (Hother e), IH; [reflexivity| |].
  - intros e' He'. apply Hkind. now right.
  - apply Hkind. now left.
Qed.

Lemma init_unconfigured_run w kind' app :
  config app = None ->
  init w kind' app
  = mkRun [] (set_kind kind' app)
      (Throw (TypeError "Cannot read properties of null (reading 'server')")).
Proof.
  intros Hcfg. unfold init. rewrite bind_modify. cbv beta.
  erewrite bind_abrupt; [reflexivity|].
  unfold startWatch. rewrite bind_get.
  change (config (set_kind kind' app)) with (config app).
  rewrite Hcfg. reflexivity.
Qed.

(** X14: on an application that has no configuration, as [new
    Application()] leaves it, [init] rejects at once: it has recorded the
    kind, and has neither created the watcher nor called any place. *)
Theorem init_needs_the_configuration w kind' app :
  config app = None ->
  trace (init w kind' app) = [] /\
  final (init w kind' app) = set_kind kind' app /\
  watcher (final (init w kind' app)) = watcher app /\
  exists e, result (init w kind' app) = Throw e.
Proof.
  intros Hcfg. rewrite (init_unconfigured_run _ _ _ Hcfg).
  repeat split. eauto.
Qed.

Lemma init_needs_the_configuration_witness :
  trace (init sample_world "server" (new_Application "/srv/application")) = [].
Proof.
  destruct (init_needs_the_configuration sample_world "server"
              (new_Application "/srv/application") eq_refl) as [H _].
  exact H.
Defined.

Lemma fanout_events_members w e :
  In e (fanout_events w)
  <-> In e ([Called schemas Load None; Called static Load None;
             Called resources Load None; Called lib Load None;
             Settled schemas (load_settles w schemas);
             Settled static (load_settles w static);
             Settled resources (load_settles w resources)]
            ++ chain_pending w).
Proof.
  rewrite fanout_events_spec, !in_app_iff, weave_events.
  cbn [concat]. rewrite !in_app_iff. cbn [In]. tauto.
Qed.

Lemma in_init_of_the_fanout w kind' app cfg e :
  config app = Some cfg ->
  is_fanout_event e = true ->
  In e (trace (init w kind' app)) <-> In e (fanout_events w).
Proof.
  intros Hcfg He. rewrite (init_trace _ _ _ _ Hcfg), !in_app_iff. split.
  - intros [[<-|[]]|[H|[H|[[<-|[<-|[]]]|H]]]]; try discriminate He.
    + exact H.
    + apply starts_events_kind in H. destruct e; discriminate.
    + apply late_events_kind in H.
      destruct e as [t|p [] [a|]|p r|f|f|t|t|a r|c]; try discriminate;
        destruct p; discriminate.
  - auto.
Qed.

(** X15: the branch [lib -> db -> domain] stops at the first load that
    fails: [db.load()] is called if and only if [lib.load()] resolves,
    and [domain.load()] if and only if both [lib.load()] and [db.load()]
    resolve. *)
Theorem failing_load_stops_the_chain w kind' app cfg :
  config app = Some cfg ->
  let tr := trace (init w kind' app) in
  (In (Called db Load None) tr <-> load_settles w lib = Normal tt) /\
  (In (Called domain Load None) tr
   <-> load_settles w lib = Normal tt /\ load_settles w db = Normal tt).
Proof.
  intros Hcfg tr. unfold tr.
  rewrite !(in_init_of_the_fanout _ _ _ _ _ Hcfg) by reflexivity.
  rewrite !fanout_events_members, !in_app_iff. unfold chain_pending.
  destruct (load_settles w lib) as [[]|e1];
    [destruct (load_settles w db) as [[]|e2]|];
    cbn [In]; split; split;
    try (intros; split; reflexivity); try reflexivity;
    try (intros H; decompose [and or] H; discriminate);
    intuition discriminate.
Qed.

Lemma failing_load_stops_the_chain_witness :
  ~ In (Called db Load None) (trace (init world_lib_fails "server" sample_app)).
Proof.
  destruct (failing_load_stops_the_chain world_lib_fails "server" sample_app
              sample_config eq_refl) as [[Hdb _] _].
  intros Hin. discriminate (Hdb Hin).
Defined.

Lemma called_event_kinds p m arg :
  (is_early_event (Called p m arg) = true -> m = Load /\ arg = None) /\
  (is_late_event (Called p m arg) = true -> m = Load /\ arg = None).
Proof. destruct p, m, arg; split; intros H; try discriminate H; auto. Qed.

Lemma count_bootstrap_loads p w cfg :
  count (is_load_of p) (bootstrap_events w cfg) = O.
Proof.
  unfold bootstrap_events. destruct (published_auth w) as [[[q|]]|]; reflexivity.
Qed.

(** X16: [init] asks the places for nothing but a full load: every call
    it makes on a place is [load()] with no path, never [change] or
    [delete], and no place is loaded twice in one [init]. *)
Theorem init_loads_each_place_at_most_once w kind' app :
  let tr := trace (init w kind' app) in
  (forall p m arg, In (Called p m arg) tr -> m = Load /\ arg = None) /\
  (forall p, (count (is_load_of p) tr <= 1)%nat).
Proof.
  intros tr. unfold tr. destruct (config app) as [cfg|] eqn:Hcfg.
  2:{ rewrite (init_unconfigured_run _ _ _ Hcfg). split.
      - intros p m arg [].
      - intros p. cbn. lia. }
  split.
  - intros p m arg. rewrite (init_trace_parts _ _ _ _ Hcfg), !in_app_iff.
    intros [H|[[H|[H|[]]]|H]].
    + apply early_events_kind in H. now apply called_event_kinds in H.
    + injection H as <- <- <-. auto.
    + discriminate H.
    + apply late_events_kind in H. now apply called_event_kinds in H.
  - intros p. rewrite (init_trace _ _ _ _ Hcfg), fanout_events_spec.
    rewrite !count_app, count_weave.
    rewrite (count_other_kind is_hook_event _ (starts_events w app));
      [|apply starts_events_kind|intros [] H; try discriminate H; reflexivity].
    unfold late_events, scheduler_settles, scheduler_events, chain_pending.
    destruct (load_settles w api) as [[]|ea];
      destruct (String.eqb kind' "scheduler");
      destruct (load_settles w scheduler) as [[]|es];
      rewrite ?count_app, ?count_bootstrap_loads;
      destruct (load_settles w lib) as [[]|el];
      destruct (load_settles w db) as [[]|ed];
      destruct p; cbn; lia.
Qed.

Lemma init_loads_each_place_at_most_once_witness :
  (count (is_load_of api)
     (trace (init sample_world "scheduler" sample_app)) <= 1)%nat.
Proof.
  destruct (init_loads_each_place_at_most_once sample_world "scheduler"
              sample_app) as [_ H].
  exact (H api).
Defined.

Lemma count_started_hooks app fs :
  count is_error_line (concat (map started (map (execute app) fs))) = O.
Proof.
  induction fs as [|f fs IH]; [reflexivity|].
  cbn [map concat]. rewrite count_app, IH, execute_started. reflexivity.
Qed.

Lemma count_pending_hooks app fs c :
  console app = Some c ->
  count is_error_line (concat (map pending (map (execute app) fs)))
  = rejected fs.
Proof.
  intros Hc. induction fs as [|f fs IH]; [reflexivity|].
  cbn [map concat rejected]. rewrite count_app, IH, execute_pending, Hc.
  destruct (fn_settles f); reflexivity.
Qed.

(** X17: what [init] writes with [console.error] is one line for each
    start hook that rejects, and nothing else: the failure of a load of
    the fan-out is written nowhere, the outcomes that
    [Promise.allSettled] collects being dropped. *)
Theorem init_logs_rejected_hooks_only w kind' app cfg c :
  config app = Some cfg ->
  console app = Some c ->
  count is_error_line (trace (init w kind' app)) = rejected (starts app).
Proof.
  intros Hcfg Hc. rewrite (init_trace _ _ _ _ Hcfg), !count_app.
  rewrite (count_other_kind is_fanout_event _ (fanout_events w));
    [|apply fanout_events_kind|intros [] H; try discriminate H; reflexivity].
  rewrite (count_other_kind is_late_event _ (late_events w kind' cfg));
    [|apply late_events_kind|intros [] H; try discriminate H; reflexivity].
  unfold starts_events. rewrite count_app, count_weave.
  rewrite count_started_hooks, (count_pending_hooks _ _ _ Hc).
  cbn. lia.
Qed.

Lemma init_logs_rejected_hooks_only_witness :
  count is_error_line
    (trace (init world_without_provider "server" app_with_hooks)) = 1%nat.
Proof.
  exact (init_logs_rejected_hooks_only world_without_provider "server"
           app_with_hooks sample_config console_object eq_refl eq_refl).
Defined.

(** X18: of the fields of the application that are its own, [init]
    writes [kind], [watcher], [sandbox], [auth], [starts] and
    [initialization] and no other: however it ends, the kind is the one
    given, and the path, the configuration, the logger, the console, the
    listener and the finalization flag are what they were.  (What the
    places hold, the registry and the module trees, is the loaders' to
    write, and is not among them.) *)
Theorem init_frame w kind' app :
  let s := final (init w kind' app) in
  kind s = kind' /\
  path s = path app /\
  config s = config app /\ logger s = logger app /\
  console s = console app /\ server s = server app /\
  finalization s = finalization app.
Proof.
  intros s. unfold s. destruct (config app) as [cfg|] eqn:Hcfg.
  - rewrite (init_run _ _ _ _ Hcfg).
    destruct (load_settles w api); [|cbn; rewrite <- Hcfg; tauto].
    destruct (scheduler_settles w kind').
    + cbn [final]. unfold initialized, bootstrapped, publish. cbn.
      destruct (published_auth w) as [[[q|]]|]; cbn; rewrite <- Hcfg; tauto.
    + cbn [final]. unfold publish. cbn. rewrite <- Hcfg. tauto.
  - rewrite (init_unconfigured_run _ _ _ Hcfg). cbn. rewrite <- Hcfg. tauto.
Qed.

(** X19: an [init] that rejects has cleared nothing: the queue of start
    hooks, the initialization flag and the auth of the application are
    what they were before the call. *)
Theorem rejected_init_keeps_the_queue w kind' app e :
  result (init w kind' app) = Throw e ->
  starts (final (init w kind' app)) = starts app /\
  initialization (final (init w kind' app)) = initialization app /\
  auth (final (init w kind' app)) = auth app.
Proof.
  destruct (config app) as [cfg|] eqn:Hcfg.
  - rewrite (init_run _ _ _ _ Hcfg).
    destruct (load_settles w api); [|intros _; cbn; tauto].
    destruct (scheduler_settles w kind'); [discriminate|].
    intros _. cbn [final]. unfold publish. cbn. tauto.
  - rewrite (init_unconfigured_run _ _ _ Hcfg). intros _. cbn. tauto.
Qed.

Lemma rejected_init_keeps_the_queue_witness :
  starts (final (init world_api_fails "server" app_with_hooks))
  = starts app_with_hooks.
Proof.
  destruct (rejected_init_keeps_the_queue world_api_fails "server"
              app_with_hooks load_error eq_refl) as [H _].
  exact H.
Defined.

(** X20: on a configured application [init] creates the watcher, with
    the configured timeout, before it calls any place, and calls the
    four branches of the fan-out, in the order schemas, static,
    resources, lib, before anything else happens. *)
Theorem init_starts_the_watcher_first w kind' app cfg :
  config app = Some cfg ->
  exists rest,
    trace (init w kind' app)
    = WatcherCreated (watch_timeout cfg)
      :: Called schemas Load None :: Called static Load None
      :: Called resources Load None :: Called lib Load None :: rest.
Proof.
  intros Hcfg. rewrite (init_trace _ _ _ _ Hcfg), fanout_events_spec.
  eexists. reflexivity.
Qed.

Lemma init_starts_the_watcher_first_witness :
  exists rest,
    trace (init world_api_fails "server" sample_app)
    = WatcherCreated 1000
      :: Called schemas Load None :: Called static Load None
      :: Called resources Load None :: Called lib Load None :: rest.
Proof.
  exact (init_starts_the_watcher_first world_api_fails "server" sample_app
           sample_config eq_refl).
Defined.

(** X23: [init] does not read the kind, the watcher or the sandbox it
    finds: it overwrites them.  On a configured application the run is
    the same whatever they were, so that nothing a former sandbox held,
    a published auth provider for one, survives a new [init]. *)
Theorem init_overwrites_kind_watcher_sandbox w kind' app cfg k0 w0 sb0 :
  config app = Some cfg ->
  init w kind' (set_kind k0 (set_watcher w0 (set_sandbox sb0 app)))
  = init w kind' app.
Proof.
  intros Hcfg.
  rewrite (init_run w kind' (set_kind k0 (set_watcher w0 (set_sandbox sb0 app)))
             cfg Hcfg).
  rewrite (init_run _ _ _ _ Hcfg). reflexivity.
Qed.

Lemma init_overwrites_kind_watcher_sandbox_witness :
  init world_with_provider "server"
    (set_kind "scheduler"
       (set_watcher (Some 5)
          (set_sandbox
             (Some (mkSandbox "W9" None (Some (mkAuthSection (Some 3%nat)))))
             sample_app)))
  = init world_with_provider "server" sample_app.
Proof.
  exact (init_overwrites_kind_watcher_sandbox world_with_provider "server"
           sample_app sample_config "scheduler" (Some 5)
           (Some (mkSandbox "W9" None (Some (mkAuthSection (Some 3%nat)))))
           eq_refl).
Defined.

(** X24: the kind is only compared with 'scheduler', letter for letter:
    under any two kinds other than 'scheduler', [init] emits the same
    events and ends the same way, and never calls the scheduler. *)
Theorem other_kinds_are_alike w k1 k2 app :
  k1 <> "scheduler" -> k2 <> "scheduler" ->
  trace (init w k1 app) = trace (init w k2 app) /\
  result (init w k1 app) = result (init w k2 app) /\
  ~ In (Called scheduler Load None) (trace (init w k1 app)).
Proof.
  intros H1 H2.
  apply String.eqb_neq in H1. apply String.eqb_neq in H2.
  destruct (config app) as [cfg|] eqn:Hcfg.
  - rewrite !(init_run _ _ _ _ Hcfg).
    unfold scheduler_settles, scheduler_events. rewrite H1, H2.
    destruct (load_settles w api); cbn [trace result]; rewrite ?app_nil_l.
    + repeat split. rewrite !in_app_iff. intros [H|H].
      * unfold events_to_api in H.
        rewrite !in_app_iff in H. destruct H as [H|[H|[H|H]]].
        -- destruct H as [H|[]]. discriminate H.
        -- apply fanout_events_kind in H. discriminate H.
        -- apply starts_events_kind in H. discriminate H.
        -- cbn in H. intuition discriminate.
      * apply bootstrap_events_kind in H as Hk.
        unfold bootstrap_events in H.
        destruct (published_auth w) as [[[q|]]|]; cbn in H;
          intuition discriminate.
    + repeat split. intros H.
      unfold events_to_api in H.
      rewrite !in_app_iff in H. destruct H as [H|[H|[H|H]]].
      * destruct H as [H|[]]. discriminate H.
      * apply fanout_events_kind in H. discriminate H.
      * apply starts_events_kind in H. discriminate H.
      * cbn in H. intuition discriminate.
  - rewrite !(init_unconfigured_run _ _ _ Hcfg). repeat split. intros [].
Qed.

Lemma other_kinds_are_alike_witness :
  trace (init sample_world "server" sample_app)
  = trace (init sample_world "Scheduler" sample_app).
Proof.
  destruct (other_kinds_are_alike sample_world "server" "Scheduler" sample_app)
    as [H _]; [discriminate|discriminate|].
  exact H.
Defined.

(** ** Shutdown, further *)

Lemma bind_keeps_state {A B} (m : K A) (f : A -> K B) s :
  final (m s) = s ->
  (forall a, final (f a s) = s) ->
  final ((m ≫= f) s) = s.
Proof.
  intros Hm Hf. unfold mbind, K_bind, bind.
  destruct (m s) as [tr s' [a|e]]; cbn in Hm |- *; subst s'; auto.
Qed.

Lemma shutdown_state app : final (shutdown app) = set_finalization true app.
Proof.
  unfold shutdown. rewrite bind_modify. cbv beta.
  set (app' := set_finalization true app).
  assert (Hawait : forall t, final (await t app') = app')
    by (intros t; rewrite await_run; reflexivity).
  repeat (apply bind_keeps_state; [apply stopPlace_state|intros _]).
  rewrite bind_get. apply bind_keeps_state.
  - destruct (server app'); [apply Hawait|reflexivity].
  - intros _. destruct (logger app'); [apply Hawait|reflexivity].
Qed.

(** X21: [shutdown] before [init], on an application that has no
    sandbox yet, rejects at once: the finalization flag is raised, but no
    module is stopped and neither the listener nor the logger is closed. *)
Theorem shutdown_needs_the_sandbox app :
  sandbox app = None ->
  trace (shutdown app) = [] /\
  final (shutdown app) = set_finalization true app /\
  exists e, result (shutdown app) = Throw e.
Proof.
  intros Hsb. unfold shutdown. rewrite bind_modify. cbv beta.
  erewrite bind_abrupt.
  2:{ unfold stopPlace. rewrite bind_get.
      change (sandbox (set_finalization true app)) with (sandbox app).
      rewrite Hsb. reflexivity. }
  repeat split. eauto.
Qed.

Lemma shutdown_needs_the_sandbox_witness :
  trace (shutdown (new_Application "/srv/application")) = [] /\
  finalization (final (shutdown (new_Application "/srv/application"))) = true.
Proof.
  destruct (shutdown_needs_the_sandbox (new_Application "/srv/application")
              eq_refl) as (Htrace & Hfinal & _).
  split; [exact Htrace|]. rewrite Hfinal. reflexivity.
Defined.

(** X22: [shutdown] changes the finalization flag and nothing else of the
    application, however it ends: the watcher in particular is left as
    it was.  Nor does it read the flag: called again on the application
    it has left, it does all it did the first time. *)
Theorem shutdown_is_not_guarded app :
  final (shutdown app) = set_finalization true app /\
  watcher (final (shutdown app)) = watcher app /\
  shutdown (final (shutdown app)) = shutdown app.
Proof.
  rewrite shutdown_state. split; [reflexivity|]. split; [reflexivity|].
  unfold shutdown. rewrite !bind_modify. reflexivity.
Qed.
